(** * bsky-sampler: a shallow embedding of [bsky-sampler.go]

    The program fetches the recent posts of one Bluesky account, keeps
    them in the package-level [allPosts] heap, answers [GET /] with a
    random one, and re-checks the account every hour.

    Effects are modelled as they appear in the Go code:
    - the remote service (handle resolution, author feed) is an oracle
      [World] indexed by the position of the call in the call log, so its
      answers may change over time;
    - [log.Fatalf] ends the process ([Exit]); a failed type assertion or an
      out-of-range index is a Go [panic] ([Panic]);
    - the global [allPosts], the log of remote calls, the printed output and
      the log of accesses to [allPosts] are the explicit state [St]. *)

From Stdlib Require Import String List ZArith Bool Lia Permutation.
Import ListNotations.
Open Scope Z_scope.
Set Warnings "-register-all".

(** ** Data model *)

(** [PostData] (struct with JSON tags text, timestamp, uri). *)
Record PostData := mkPostData {
  Text : string;
  Timestamp : string;
  Uri : string
}.

(** [bsky.FeedPost]: the fields the program reads. *)
Record FeedPost := mkFeedPost {
  fp_Text : string;
  fp_CreatedAt : string
}.

(** [post.Record.Val]: a lexicon value of any record type. *)
Inductive RecordVal :=
| RecFeedPost (p : FeedPost)
| RecOther (lexicon_type : string).

(** [bsky.FeedDefs_PostView] *)
Record PostView := mkPostView {
  pv_Uri : string;
  pv_AuthorDid : string;
  pv_Record : RecordVal
}.

(** [bsky.FeedDefs_FeedViewPost] (an entry of [feed.Feed]). *)
Record FeedViewPost := mkFeedViewPost {
  fv_Post : PostView
}.

(** Result of a remote call: a value or a transport / decode error. *)
Inductive RResult (A : Type) :=
| ROk (a : A)
| RErr (err : string).
Arguments ROk {A} a.
Arguments RErr {A} err.

(** The remote API. Each answer may depend on [n], the number of remote
    calls issued before (so the account may post between two calls). *)
Record World := mkWorld {
  w_resolve : nat -> string -> RResult string;
  w_feed : nat -> string -> Z -> RResult (list FeedViewPost)
}.

(** Remote calls, as issued by [getHandlePostList]. *)
Inductive Call :=
| CResolveHandle (handle : string)
| CGetAuthorFeed (did : string) (filter : string) (includePins : bool) (limit : Z).

(** Printed / logged output. *)
Inductive OutEv :=
| OutFetching (handle : string)
| OutFetched (n : nat)
| OutChecking
| OutLog (msg : string).

(** Accesses of a goroutine to the shared variable [allPosts]. *)
Inductive Access :=
| ARead
| AWrite
| ALock
| AUnlock.

(** The process state. *)
Record St := mkSt {
  allPosts : list PostData;
  calls : list Call;
  out : list OutEv;
  acc : list Access
}.

Definition init_st : St := mkSt [] [] [] [].

(** ** A state and exit/panic monad *)

Inductive Outcome (A : Type) :=
| Ok (a : A) (s : St)
| Exit (msg : string) (s : St)
| Panic (msg : string) (s : St).
Arguments Ok {A} a s.
Arguments Exit {A} msg s.
Arguments Panic {A} msg s.

Definition final {A} (o : Outcome A) : St :=
  match o with Ok _ s | Exit _ s | Panic _ s => s end.

Definition M (A : Type) := St -> Outcome A.

Definition ret {A} (a : A) : M A := fun s => Ok a s.
Definition bind {A B} (m : M A) (k : A -> M B) : M B :=
  fun s => match m s with
           | Ok a s' => k a s'
           | Exit e s' => Exit e s'
           | Panic e s' => Panic e s'
           end.

Notation "x <- m ;; k" := (bind m (fun x => k))
  (at level 61, m at next level, right associativity).
Notation "' pat <- m ;; k" := (bind m (fun x => match x with pat => k end))
  (at level 61, pat pattern, m at next level, right associativity).
Notation "m ;;; k" := (bind m (fun _ => k))
  (at level 61, right associativity).

(** [log.Fatalf]: print and [os.Exit(1)]. *)
Definition fatal {A} (msg : string) : M A := fun s => Exit msg s.
(** A Go run-time panic. *)
Definition panic {A} (msg : string) : M A := fun s => Panic msg s.

Definition emit (e : OutEv) : M unit :=
  fun s => Ok tt (mkSt (allPosts s) (calls s) (out s ++ [e]) (acc s)).

Definition touch (a : list Access) : M unit :=
  fun s => Ok tt (mkSt (allPosts s) (calls s) (out s) (acc s ++ a)).

(** Issue a remote call: log it and ask the world at the current index. *)
Definition remote {A} (c : Call) (f : nat -> RResult A) : M (RResult A) :=
  fun s => Ok (f (length (calls s)))
              (mkSt (allPosts s) (calls s ++ [c]) (out s) (acc s)).

(** ** The [MaxHeap] methods (lines 49-74) *)

(** [h.Len()]: reads the slice header. *)
Definition heap_Len : M Z :=
  touch [ARead];;; (fun s => Ok (Z.of_nat (length (allPosts s))) s).

(** [h.Push(x)]: [*h = append( *h, x)], a read and a write of [allPosts].
    The method is called directly, not through [container/heap], so no
    sift-up follows. *)
Definition heap_Push (x : PostData) : M unit :=
  touch [ARead; AWrite];;;
  (fun s => Ok tt (mkSt (allPosts s ++ [x]) (calls s) (out s) (acc s))).

(** [h.Get(index)] on a given slice. *)
Definition Get (h : list PostData) (index : Z) : option PostData :=
  if (index <? 0) || (index >=? Z.of_nat (length h)) then None
  else nth_error h (Z.to_nat index).

Definition heap_Get (index : Z) : M PostData :=
  touch [ARead];;;
  (fun s => match Get (allPosts s) index with
            | None => Panic "Index out of bounds" s
            | Some p => Ok p s
            end).

(** ** Fetching (lines 21-40) *)

(** The loop keeping the posts authored by [did]. *)
Fixpoint filter_author (did : string) (feed : list FeedViewPost) : list PostView :=
  match feed with
  | [] => []
  | post :: rest =>
      if String.eqb (pv_AuthorDid (fv_Post post)) did
      then fv_Post post :: filter_author did rest
      else filter_author did rest
  end.

(** [getHandlePostList]: resolves the handle, then fetches the feed; both
    errors are fatal; the returned error is always [nil] ([None]). *)
Definition getHandlePostList (w : World) (handle : string) (limit : Z)
  : M (list PostView * option string) :=
  r <- remote (CResolveHandle handle) (fun n => w_resolve w n handle) ;;
  match r with
  | RErr err => fatal ("Error resolving handle: " ++ err)
  | ROk did =>
      f <- remote (CGetAuthorFeed did "posts_no_replies" false limit)
                  (fun n => w_feed w n did limit) ;;
      match f with
      | RErr err => fatal ("Oh no! Error fetching feed: " ++ err)
      | ROk feed => ret (filter_author did feed, None)
      end
  end.

(** [post.Record.Val.( *bsky.FeedPost)]: an unchecked type assertion. *)
Definition assert_FeedPost (r : RecordVal) : M FeedPost :=
  match r with
  | RecFeedPost p => ret p
  | RecOther t => panic ("interface conversion: not *bsky.FeedPost but " ++ t)
  end.

(** ** [updatePosts] (lines 92-107) *)

Definition to_PostData (post : PostView) (feedPost : FeedPost) : PostData :=
  mkPostData (fp_Text feedPost) (fp_CreatedAt feedPost) (pv_Uri post).

(** The [for _, post := range postList] loop. *)
Fixpoint push_all (postList : list PostView) : M unit :=
  match postList with
  | [] => ret tt
  | post :: rest =>
      feedPost <- assert_FeedPost (pv_Record post) ;;
      heap_Push (to_PostData post feedPost) ;;;
      push_all rest
  end.

(** The [limit] argument is unused: the window is always 100. *)
Definition updatePosts (w : World) (handle : string) (limit : Z) : M unit :=
  '(postList, err) <- getHandlePostList w handle 100 ;;
  match err with
  | Some e => fatal ("Error fetching posts: " ++ e)
  | None =>
      emit (OutFetched (length postList)) ;;;
      push_all postList
  end.

(** ** [checkForNewPosts] (lines 109-121) *)

Definition checkForNewPosts (w : World) (handle : string) (limit : Z) : M unit :=
  '(postList, err) <- getHandlePostList w handle 1 ;;
  match err with
  | Some e => emit (OutLog ("Error fetching posts: " ++ e)) ;;; ret tt
  | None =>
      match postList with
      | [] => panic "index out of range [0] with length 0"
      | p0 :: _ =>
          recentPost <- assert_FeedPost (pv_Record p0) ;;
          top <- heap_Get 0 ;;
          if String.leb (fp_CreatedAt recentPost) (Timestamp top)
          then ret tt
          else updatePosts w handle 100
      end
  end.

(** ** [main] (lines 123-146), the refresher side *)

(** [ticks] hourly iterations of the ticker goroutine. *)
Fixpoint ticker_loop (w : World) (handle : string) (ticks : nat) : M unit :=
  match ticks with
  | O => ret tt
  | S k =>
      ticker_loop w handle k ;;;
      emit OutChecking ;;;
      checkForNewPosts w handle 100
  end.

Definition main_run (w : World) (ticks : nat) : Outcome unit :=
  let handle := "carl.cx"%string in
  (emit (OutFetching handle) ;;;
   updatePosts w handle 100 ;;;
   ticker_loop w handle ticks) init_st.

(** ** [math/rand]: [rand.Intn] on the global source

    [draws] are the successive outputs of the source's [Int63]; [Int31] is
    [Int63() >> 32].  [None]: the draws ran out before a value was
    accepted (the rejection loop would draw again). *)

Definition Int31 (v63 : Z) : Z := Z.shiftr v63 32.

Fixpoint reject_loop (next : Z -> Z) (draws : list Z) (n max : Z)
  : option (Z * list Z) :=
  match draws with
  | [] => None
  | d :: rest =>
      let v := next d in
      if v >? max then reject_loop next rest n max else Some (Z.rem v n, rest)
  end.

(** [r.Int31n(n)] and [r.Int63n(n)], for [n > 0]. *)
Definition IntNn (bits : Z) (next : Z -> Z) (draws : list Z) (n : Z)
  : option (Z * list Z) :=
  if Z.land n (n - 1) =? 0 then
    match draws with
    | [] => None
    | d :: rest => Some (Z.land (next d) (n - 1), rest)
    end
  else reject_loop next draws n (2 ^ bits - 1 - (2 ^ bits) mod n).

Definition Int31n := IntNn 31 Int31.
Definition Int63n := IntNn 63 (fun v => v).

(** [r.Intn(n)] for [n > 0]. *)
Definition Intn (draws : list Z) (n : Z) : option (Z * list Z) :=
  if n <=? 2 ^ 31 - 1 then Int31n draws n else Int63n draws n.

(** ** [net/http] and [encoding/json], as the handler uses them *)

(** A JSON value. *)
Inductive JValue :=
| JString (s : string)
| JObject (fields : list (string * JValue)).

(** [json.Marshal] of a [PostData] (field names from the struct tags). *)
Definition post_json (p : PostData) : JValue :=
  JObject [("text", JString (Text p));
           ("timestamp", JString (Timestamp p));
           ("uri", JString (Uri p))]%string.

(** *** The bytes [encoding/json] produces *)

Definition chr (n : nat) : string := String (Ascii.ascii_of_nat n) EmptyString.
Definition dq : string := chr 34.
Definition bs : string := chr 92.

(** A digit of [hex = "0123456789abcdef"]. *)
Definition hexdig (n : nat) : string :=
  chr (if (n <? 10)%nat then (48 + n)%nat else (87 + n)%nat).

(** One byte below [utf8.RuneSelf] inside a string ([appendString] with
    [escapeHTML], the [Encoder]'s default): the bytes of [htmlSafeSet] are
    copied, the others escaped. *)
Definition esc_ascii (c : Ascii.ascii) : string :=
  let b := Ascii.nat_of_ascii c in
  (if ((b =? 34) || (b =? 92))%nat then bs ++ String c EmptyString
  else if (b =? 8)%nat then bs ++ "b"
  else if (b =? 12)%nat then bs ++ "f"
  else if (b =? 10)%nat then bs ++ "n"
  else if (b =? 13)%nat then bs ++ "r"
  else if (b =? 9)%nat then bs ++ "t"
  else if ((b <? 32) || (b =? 60) || (b =? 62) || (b =? 38))%nat
  then bs ++ "u00" ++ hexdig (b / 16)%nat ++ hexdig (b mod 16)%nat
  else String c EmptyString)%string.

Definition in_range (lo hi : nat) (c : Ascii.ascii) : bool :=
  ((lo <=? Ascii.nat_of_ascii c) && (Ascii.nat_of_ascii c <=? hi))%nat.

(** The [first] and [acceptRanges] tables of [unicode/utf8]: for a leading
    byte, the size of the sequence and the range of its second byte; size
    0 for a byte that cannot start one. *)
Definition utf8_accept (x : nat) : nat * nat * nat :=
  if ((194 <=? x) && (x <=? 223))%nat then (2, 128, 191)%nat
  else if (x =? 224)%nat then (3, 160, 191)%nat
  else if ((225 <=? x) && (x <=? 236))%nat then (3, 128, 191)%nat
  else if (x =? 237)%nat then (3, 128, 159)%nat
  else if ((238 <=? x) && (x <=? 239))%nat then (3, 128, 191)%nat
  else if (x =? 240)%nat then (4, 144, 191)%nat
  else if ((241 <=? x) && (x <=? 243))%nat then (4, 128, 191)%nat
  else if (x =? 244)%nat then (4, 128, 143)%nat
  else (0, 0, 0)%nat.

(** [utf8.DecodeRuneInString] on a string starting with the byte [x]
    (at least [0x80]) followed by [r]: the size of the rune, [None] for
    [(RuneError, 1)]. *)
Definition utf8_size (x : nat) (r : string) : option nat :=
  let '(sz, lo, hi) := utf8_accept x in
  if (sz =? 0)%nat then None else
  match r with
  | EmptyString => None
  | String c1 r1 =>
      if negb (in_range lo hi c1) then None
      else if (sz =? 2)%nat then Some 2%nat else
      match r1 with
      | EmptyString => None
      | String c2 r2 =>
          if negb (in_range 128 191 c2) then None
          else if (sz =? 3)%nat then Some 3%nat else
          match r2 with
          | EmptyString => None
          | String c3 _ => if in_range 128 191 c3 then Some 4%nat else None
          end
      end
  end.

Fixpoint str_drop (n : nat) (s : string) : string :=
  match n, s with
  | S n', String _ s' => str_drop n' s'
  | _, _ => s
  end.

Fixpoint str_take (n : nat) (s : string) : string :=
  match n, s with
  | S n', String c s' => String c (str_take n' s')
  | _, _ => EmptyString
  end.

(** The loop of [appendString]; every round consumes at least one byte,
    so [String.length s] rounds suffice. *)
Fixpoint json_esc (fuel : nat) (s : string) : string :=
  match fuel, s with
  | O, _ | _, EmptyString => EmptyString
  | S f, String c r =>
      let x := Ascii.nat_of_ascii c in
      (if (x <? 128)%nat then esc_ascii c ++ json_esc f r
      else
        match utf8_size x r with
        | None => bs ++ "ufffd" ++ json_esc f r
        | Some k =>
            match r with
            | String c1 (String c2 r2) =>
                if ((x =? 226) && (Ascii.nat_of_ascii c1 =? 128)
                    && in_range 168 169 c2)%nat
                then bs ++ "u202" ++ hexdig (Ascii.nat_of_ascii c2 - 160)%nat
                        ++ json_esc f r2
                else str_take k s ++ json_esc f (str_drop k s)
            | _ => str_take k s ++ json_esc f (str_drop k s)
            end
        end)%string
  end.

Definition json_string (s : string) : string :=
  (dq ++ json_esc (String.length s) s ++ dq)%string.

(** The bytes of [encodeState.marshal]. *)
Fixpoint json_bytes (v : JValue) : string :=
  match v with
  | JString s => json_string s
  | JObject fs =>
      let fix fields (fs : list (string * JValue)) : string :=
        match fs with
        | [] => EmptyString
        | [(k, x)] => (json_string k ++ ":" ++ json_bytes x)%string
        | (k, x) :: rest =>
            (json_string k ++ ":" ++ json_bytes x ++ "," ++ fields rest)%string
        end in
      ("{" ++ fields fs ++ "}")%string
  end.

(** A piece of response body: raw text, or the encoding of a JSON value
    followed by a newline (one [Encoder.Encode]). *)
Inductive Chunk :=
| CText (s : string)
| CJson (v : JValue).

(** The number of bytes of the one [Write] a chunk is written with. *)
Definition chunk_size (c : Chunk) : nat :=
  match c with
  | CText s => String.length s
  | CJson v => S (String.length (json_bytes v))
  end.

Definition Header := list (string * string).

(** *** The [ResponseWriter]

    The handler's writes go to the response's [bufio.Writer] of
    [bufferBeforeChunkingSize] bytes; what does not fit is handed to the
    chunk writer, which puts it into the connection's [bufio.Writer] of
    4 KiB over the socket.  A working connection takes every write.  On a
    broken one, a write fails once the bytes handed down no longer fit
    the connection's buffer; the status line and headers, which share
    that buffer, are not counted, so the real connection fails no later. *)
Definition bufferBeforeChunkingSize : nat := 2048.
Definition conn_buffer_size : nat := 4096.

(** The handler's header map, the status and header snapshot once
    written, the body accepted so far, whether the connection works, the
    bytes held in the response buffer, the bytes handed down, and the
    response buffer's sticky error. *)
Record RW := mkRW {
  rw_hdr : Header;
  rw_sent : option (Z * Header);
  rw_body : list Chunk;
  rw_conn_ok : bool;
  rw_buf : nat;
  rw_low : nat;
  rw_err : bool
}.

Definition rw0 (conn_ok : bool) : RW := mkRW [] None [] conn_ok 0 0 false.

Definition hdr_del (k : string) (h : Header) : Header :=
  filter (fun kv => negb (String.eqb (fst kv) k)) h.
Definition hdr_set (k v : string) (h : Header) : Header := (k, v) :: hdr_del k h.

Definition set_header (k v : string) (w : RW) : RW :=
  mkRW (hdr_set k v (rw_hdr w)) (rw_sent w) (rw_body w) (rw_conn_ok w)
       (rw_buf w) (rw_low w) (rw_err w).

(** [w.WriteHeader(code)]: only the first call has an effect (later ones
    are superfluous); the header map is copied at that moment. *)
Definition WriteHeader (code : Z) (w : RW) : RW :=
  match rw_sent w with
  | Some _ => w
  | None => mkRW (rw_hdr w) (Some (code, rw_hdr w)) (rw_body w) (rw_conn_ok w)
                 (rw_buf w) (rw_low w) (rw_err w)
  end.

(** A write of [k] bytes below the response buffer, [low] bytes having
    been handed down before: the new count, [None] when it fails. *)
Definition low_write (conn_ok : bool) (low k : nat) : option nat :=
  if conn_ok || (low + k <=? conn_buffer_size)%nat then Some (low + k)%nat else None.

(** [bufio.Writer.Write] of [n] bytes on the response buffer holding [buf]
    bytes: the new [buf], [low] and error. *)
Definition bufio_Write (conn_ok : bool) (buf low : nat) (err : bool) (n : nat)
  : nat * nat * bool :=
  if err then (buf, low, true)
  else if (n <=? bufferBeforeChunkingSize - buf)%nat then ((buf + n)%nat, low, false)
  else if (buf =? 0)%nat then
    (* large write, empty buffer: written directly *)
    match low_write conn_ok low n with
    | Some low' => (0%nat, low', false)
    | None => (0%nat, low, true)
    end
  else
    (* fill the buffer and flush it, then the rest *)
    match low_write conn_ok low bufferBeforeChunkingSize with
    | None => (bufferBeforeChunkingSize, low, true)
    | Some low' =>
        let n' := (n - (bufferBeforeChunkingSize - buf))%nat in
        if (n' <=? bufferBeforeChunkingSize)%nat then (n', low', false)
        else match low_write conn_ok low' n' with
             | Some low'' => (0%nat, low'', false)
             | None => (0%nat, low', true)
             end
    end.

(** [w.Write(b)] ([response.write]): writes the header with status 200 if
    not written yet; an empty write stops there; otherwise the data goes
    through the response buffer.  The boolean is [true] when the write
    returned an error. *)
Definition Write (c : Chunk) (w : RW) : RW * bool :=
  let w1 := WriteHeader 200 w in
  let n := chunk_size c in
  if (n =? 0)%nat then (w1, false) else
  let '(buf, low, err) := bufio_Write (rw_conn_ok w1) (rw_buf w1) (rw_low w1) (rw_err w1) n in
  (mkRW (rw_hdr w1) (rw_sent w1) (if err then rw_body w1 else rw_body w1 ++ [c])
        (rw_conn_ok w1) buf low err, err).

Definition newline : string := String (Ascii.ascii_of_nat 10) EmptyString.

(** [http.Error(w, error, code)]. *)
Definition http_Error (w : RW) (error : string) (code : Z) : RW :=
  let h := hdr_set "X-Content-Type-Options" "nosniff"
             (hdr_set "Content-Type" "text/plain; charset=utf-8"
               (hdr_del "Content-Length" (rw_hdr w))) in
  let w1 := WriteHeader code (mkRW h (rw_sent w) (rw_body w) (rw_conn_ok w)
                                   (rw_buf w) (rw_low w) (rw_err w)) in
  fst (Write (CText (error ++ newline)) w1).

(** [json.NewEncoder(w).Encode(v)]: marshalling a [PostData] cannot fail,
    so the only error is the one of the write. *)
Definition Encode (w : RW) (p : PostData) : RW * bool :=
  Write (CJson (post_json p)) w.

(** What the server commits once the handler returns: the status, the
    header snapshot and the body the writer accepted. *)
Record Response := mkResponse {
  status : Z;
  headers : Header;
  body : list Chunk
}.

Definition finish (w : RW) : Response :=
  match rw_sent w with
  | Some (code, h) => mkResponse code h (rw_body w)
  | None => mkResponse 200 (rw_hdr w) (rw_body w)
  end.

(** ** [randomPostHandler] (lines 76-90)

    [None]: the random draws ran out (see [Intn]). *)
Definition randomPostHandler (rng : list Z) (conn_ok : bool)
  : M (option Response) :=
  let w := rw0 conn_ok in
  len <- heap_Len ;;
  if len =? 0 then
    ret (Some (finish (http_Error w "No posts available" 404)))
  else
    n <- heap_Len ;;
    if n <=? 0 then panic "invalid argument to Intn" else
    match Intn rng n with
    | None => ret None
    | Some (randomIndex, _) =>
        randomPost <- heap_Get randomIndex ;;
        let w1 := set_header "Content-Type" "application/json" w in
        let '(w2, err) := Encode w1 randomPost in
        if err
        then ret (Some (finish (http_Error w2 "Error encoding JSON" 500)))
        else ret (Some (finish w2))
    end.

(** ** Interleavings of two goroutines' accesses to [allPosts]

    Goroutine 1 is an HTTP handler, goroutine 2 the ticker goroutine.
    Go's scheduler may interleave their accesses in any order allowed by
    their synchronisation; the only synchronisation we model is a mutex
    ([ALock] / [AUnlock]). *)

Inductive Interleaving : list (nat * Access) -> list Access -> list Access -> Prop :=
| il_nil : Interleaving [] [] []
| il_left a t xs ys :
    Interleaving t xs ys -> Interleaving ((1%nat, a) :: t) (a :: xs) ys
| il_right a t xs ys :
    Interleaving t xs ys -> Interleaving ((2%nat, a) :: t) xs (a :: ys).

(** A schedule can run: no goroutine takes a mutex another one holds. *)
Fixpoint schedulable (holder : option nat) (t : list (nat * Access)) : bool :=
  match t with
  | [] => true
  | (g, ALock) :: rest =>
      match holder with
      | None => schedulable (Some g) rest
      | Some _ => false
      end
  | (g, AUnlock) :: rest => schedulable None rest
  | (_, _) :: rest => schedulable holder rest
  end.

(** Every read and write of [allPosts] is done holding the mutex. *)
Fixpoint guarded (holder : option nat) (t : list (nat * Access)) : bool :=
  match t with
  | [] => true
  | (g, ALock) :: rest => guarded (Some g) rest
  | (g, AUnlock) :: rest => guarded None rest
  | (g, _) :: rest =>
      match holder with
      | Some h => Nat.eqb h g && guarded holder rest
      | None => false
      end
  end.

(** Accesses to [allPosts] made by a run of [m] from [s]. *)
Definition accesses {A} (m : M A) (s : St) : list Access :=
  skipn (length (acc s)) (acc (final (m s))).

(** ** Concrete scenarios *)

Definition did_x : string := "did:plc:x".

Definition fp1 : FeedPost := mkFeedPost "first" "2024-01-01T00:00:00Z".
Definition fp2 : FeedPost := mkFeedPost "second" "2024-01-02T00:00:00Z".
Definition pv1 : PostView := mkPostView "at://x/1" did_x (RecFeedPost fp1).
Definition pv2 : PostView := mkPostView "at://x/2" did_x (RecFeedPost fp2).
Definition P1 : PostData := to_PostData pv1 fp1.
Definition P2 : PostData := to_PostData pv2 fp2.

(** A post whose text is 8 KiB of [a]: its JSON is larger than the
    response buffer and the connection's buffer together. *)
Definition big_text : string :=
  string_of_list_ascii (repeat (Ascii.ascii_of_nat 97) (2 ^ 13)%nat).
Definition P_big : PostData :=
  mkPostData big_text "2024-01-03T00:00:00Z" "at://x/3".

(** An account that posted [pv1], then [pv2] after the first two remote
    calls (the initial load); the feed is newest first. *)
Definition timeline (n : nat) : list FeedViewPost :=
  if (n <? 2)%nat then [mkFeedViewPost pv1]
  else [mkFeedViewPost pv2; mkFeedViewPost pv1].

Definition w_grow : World :=
  mkWorld (fun _ _ => ROk did_x)
          (fun n _ lim => ROk (firstn (Z.to_nat lim) (timeline n))).

Definition st_of (posts : list PostData) : St := mkSt posts [] [] [].

(** A world whose feed request fails after the initial load. *)
Definition w_fail : World :=
  mkWorld (fun _ _ => ROk did_x)
          (fun n _ lim => if (n <? 2)%nat then ROk [mkFeedViewPost pv1]
                          else RErr "context deadline exceeded").

(** An account with no post at the initial load, one post afterwards. *)
Definition w_late : World :=
  mkWorld (fun _ _ => ROk did_x)
          (fun n _ lim => if (n <? 2)%nat then ROk []
                          else ROk (firstn (Z.to_nat lim) [mkFeedViewPost pv1])).

(** A post of the account whose record is not an [app.bsky.feed.post]. *)
Definition pv_other : PostView :=
  mkPostView "at://x/3" did_x (RecOther "app.bsky.feed.generator").

Definition w_other : World :=
  mkWorld (fun _ _ => ROk did_x)
          (fun _ _ _ => ROk [mkFeedViewPost pv_other]).

(** ** Observations used by the statements *)

(** The [PostData] the loop of [updatePosts] builds from [postList] when
    every record is a feed post. *)
Fixpoint window_PostData (pl : list PostView) : option (list PostData) :=
  match pl with
  | [] => Some []
  | post :: rest =>
      match pv_Record post with
      | RecFeedPost fp => option_map (cons (to_PostData post fp)) (window_PostData rest)
      | RecOther _ => None
      end
  end.

Definition is_FeedPost (r : RecordVal) : bool :=
  match r with RecFeedPost _ => true | RecOther _ => false end.

Definition count_resolve (l : list Call) : nat :=
  length (filter (fun c => match c with CResolveHandle _ => true | _ => false end) l).

(** The remote calls of one [getHandlePostList handle limit] that went
    through. *)
Definition fetch_calls (handle : string) (limit : Z) (l : list Call) : Prop :=
  exists did, l = [CResolveHandle handle; CGetAuthorFeed did "posts_no_replies" false limit].

(** The remote calls of one completed periodic check: the fetch of the
    newest post, followed by the fetch of the window when it refreshes. *)
Definition check_calls (handle : string) (l : list Call) : Prop :=
  fetch_calls handle 1 l \/
  exists l1 l2, l = l1 ++ l2 /\ fetch_calls handle 1 l1 /\ fetch_calls handle 100 l2.

(** The calls of [n] completed checks. *)
Definition checks_calls (handle : string) (n : nat) (l : list Call) : Prop :=
  exists cs, Forall (check_calls handle) cs /\ length cs = n /\ l = concat cs.

Definition seq_calls (L1 L2 : list Call -> Prop) (l : list Call) : Prop :=
  exists l1 l2, l = l1 ++ l2 /\ L1 l1 /\ L2 l2.

Definition is_ok {A} (o : Outcome A) : bool :=
  match o with Ok _ _ => true | _ => false end.

Definition no_lock (l : list Access) : bool :=
  forallb (fun a => match a with ARead | AWrite => true | _ => false end) l.

(** ** Monadic invariants *)

Definition keeps (P : St -> Prop) {A} (m : M A) : Prop :=
  forall s, P s -> P (final (m s)).

(** [m] adds to the call log a sequence of [L], or, when it exits or
    panics, a prefix of one. *)
Definition logs (L : list Call -> Prop) {A} (m : M A) : Prop :=
  forall s, exists b r, L b /\ calls s ++ b = calls (final (m s)) ++ r /\
                        (is_ok (m s) = true -> r = []).

Definition calls_is (c0 : list Call) (s : St) : Prop := calls s = c0.

(** ** The remaining [MaxHeap] methods (lines 52-66)

    [Less], [Swap] and [Pop] implement [heap.Interface]; the program never
    calls them.  Go's built-in indexing [h[i]] panics out of range. *)

Definition slice_index {A} (l : list A) (i : Z) : option A :=
  if (i <? 0) || (i >=? Z.of_nat (length l)) then None
  else nth_error l (Z.to_nat i).

Fixpoint list_set {A} (l : list A) (n : nat) (x : A) : list A :=
  match l, n with
  | [], _ => []
  | _ :: rest, O => x :: rest
  | y :: rest, S k => y :: list_set rest k x
  end.

(** [h.Less(i, j)]: [h[i].Timestamp > h[j].Timestamp]. *)
Definition heap_Less (i j : Z) : M bool :=
  touch [ARead];;;
  (fun s => match slice_index (allPosts s) i, slice_index (allPosts s) j with
            | Some hi, Some hj => Ok (String.ltb (Timestamp hj) (Timestamp hi)) s
            | _, _ => Panic "index out of range" s
            end).

(** [h.Swap(i, j)]: [h[i], h[j] = h[j], h[i]]. *)
Definition heap_Swap (i j : Z) : M unit :=
  touch [ARead];;;
  (fun s => match slice_index (allPosts s) j, slice_index (allPosts s) i with
            | Some hj, Some hi =>
                let h1 := list_set (allPosts s) (Z.to_nat i) hj in
                let h2 := list_set h1 (Z.to_nat j) hi in
                Ok tt (mkSt h2 (calls s) (out s) (acc s ++ [AWrite]))
            | _, _ => Panic "index out of range" s
            end).

(** [h.Pop()]: [x := old[n-1]; *h = old[0 : n-1]]. *)
Definition heap_Pop : M PostData :=
  touch [ARead];;;
  (fun s => let old := allPosts s in
            let n := Z.of_nat (length old) in
            match slice_index old (n - 1) with
            | None => Panic "index out of range [-1]" s
            | Some x =>
                Ok x (mkSt (firstn (Z.to_nat (n - 1)) old) (calls s) (out s)
                           (acc s ++ [AWrite]))
            end).

(** ** The earlier revision of the program (lines 148-242)

    [allPosts] is a plain [[]PostData]; [main] loads 50 posts once and
    serves; the handler indexes the slice directly. *)

(** [allPosts = append(allPosts, postData)] *)
Definition append_allPosts (x : PostData) : M unit :=
  touch [ARead; AWrite];;;
  (fun s => Ok tt (mkSt (allPosts s ++ [x]) (calls s) (out s) (acc s))).

Fixpoint append_all_v0 (postList : list PostView) : M unit :=
  match postList with
  | [] => ret tt
  | post :: rest =>
      feedPost <- assert_FeedPost (pv_Record post) ;;
      append_allPosts (to_PostData post feedPost) ;;;
      append_all_v0 rest
  end.

(** [main] of the earlier revision, up to [http.ListenAndServe]. *)
Definition main_v0_load (w : World) : Outcome unit :=
  let handle := "carl.cx"%string in
  (emit (OutFetching handle) ;;;
   '(postList, err) <- getHandlePostList w handle 50 ;;
   match err with
   | Some e => fatal ("Error fetching posts: " ++ e)
   | None =>
       emit (OutFetched (length postList)) ;;;
       append_all_v0 postList
   end) init_st.

(** [randomPostHandler] of the earlier revision. *)
Definition randomPostHandler_v0 (rng : list Z) (conn_ok : bool)
  : M (option Response) :=
  let w := rw0 conn_ok in
  len <- heap_Len ;;
  if len =? 0 then
    ret (Some (finish (http_Error w "No posts available" 404)))
  else
    n <- heap_Len ;;
    if n <=? 0 then panic "invalid argument to Intn" else
    match Intn rng n with
    | None => ret None
    | Some (randomIndex, _) =>
        touch [ARead] ;;;
        (fun s => match slice_index (allPosts s) randomIndex with
                  | None => Panic "index out of range" s
                  | Some randomPost =>
                      let w1 := set_header "Content-Type" "application/json" w in
                      let '(w2, err) := Encode w1 randomPost in
                      if err
                      then Ok (Some (finish (http_Error w2 "Error encoding JSON" 500))) s
                      else Ok (Some (finish w2)) s
                  end)
    end.

(** A remote service that gives the same answers at every call. *)
Definition stable_world (w : World) (handle did : string) (feed1 feed100 : list FeedViewPost)
  : Prop :=
  forall n, w_resolve w n handle = ROk did /\
            w_feed w n did 1 = ROk feed1 /\
            w_feed w n did 100 = ROk feed100.

Definition w_repost : World :=
  mkWorld (fun _ _ => ROk did_x)
          (fun n _ lim =>
             if (n <? 2)%nat then ROk [mkFeedViewPost pv1]
             else ROk [mkFeedViewPost (mkPostView "at://y/9" "did:plc:y" (RecFeedPost fp2))]).

(** An account whose newest post [pv2] stays the same at every call. *)
Definition w_stable : World :=
  mkWorld (fun _ _ => ROk did_x)
          (fun _ _ lim => ROk (firstn (Z.to_nat lim)
                                [mkFeedViewPost pv2; mkFeedViewPost pv1])).

(** * Proofs *)

(** ** Monad lemmas *)

Lemma bind_Ok {A B} (m : M A) (k : A -> M B) s a s' :
  m s = Ok a s' -> bind m k s = k a s'.
Proof. intros H; unfold bind; rewrite H; reflexivity. Qed.

Lemma keeps_bind (P : St -> Prop) {A B} (m : M A) (k : A -> M B) :
  keeps P m -> (forall a, keeps P (k a)) -> keeps P (bind m k).
Proof.
  intros Hm Hk s Hs; unfold bind.
  specialize (Hm s Hs).
  destruct (m s) as [a s'|e s'|e s'] eqn:E; simpl in *; auto.
  apply Hk; exact Hm.
Qed.

Lemma keeps_ret (P : St -> Prop) {A} (a : A) : keeps P (ret a).
Proof. intros s Hs; exact Hs. Qed.

Lemma keeps_fatal (P : St -> Prop) {A} msg : keeps P (@fatal A msg).
Proof. intros s Hs; exact Hs. Qed.

Lemma keeps_panic (P : St -> Prop) {A} msg : keeps P (@panic A msg).
Proof. intros s Hs; exact Hs. Qed.

Lemma length_snoc {X} (l : list X) (x : X) : length (l ++ [x]) = S (length l).
Proof. rewrite length_app; simpl; lia. Qed.

(** ** Fetching *)

Lemma getHandlePostList_ok w handle limit s did feed :
  w_resolve w (length (calls s)) handle = ROk did ->
  w_feed w (S (length (calls s))) did limit = ROk feed ->
  getHandlePostList w handle limit s =
  Ok (filter_author did feed, None)
     (mkSt (allPosts s)
           (calls s ++ [CResolveHandle handle;
                        CGetAuthorFeed did "posts_no_replies" false limit])
           (out s) (acc s)).
Proof.
  intros Hr Hf.
  unfold getHandlePostList, bind, remote; simpl.
  rewrite Hr; simpl.
  rewrite length_snoc, Hf; simpl.
  rewrite <- app_assoc; reflexivity.
Qed.

(** [getHandlePostList] never hands an error to its caller: every remote
    failure ends the process inside it. *)
Lemma getHandlePostList_no_error w handle limit s pl err s' :
  getHandlePostList w handle limit s = Ok (pl, err) s' -> err = None.
Proof.
  unfold getHandlePostList, bind, remote, ret, fatal; simpl.
  destruct (w_resolve w _ handle); [|discriminate].
  destruct (w_feed w _ _ _); [|discriminate].
  intros H; inversion H; reflexivity.
Qed.

(** ** The push loop *)

Lemma push_all_ok pl pds s :
  window_PostData pl = Some pds ->
  exists s', push_all pl s = Ok tt s' /\
             allPosts s' = allPosts s ++ pds /\ calls s' = calls s.
Proof.
  revert pds s; induction pl as [|post rest IH]; intros pds s Hw.
  - simpl in Hw; inversion Hw; subst.
    exists s; simpl; rewrite app_nil_r; auto.
  - simpl in Hw.
    destruct (pv_Record post) as [fp|t] eqn:Er; [|discriminate].
    destruct (window_PostData rest) as [pds'|] eqn:Ew; simpl in Hw; [|discriminate].
    inversion Hw; subst; clear Hw.
    set (s1 := mkSt (allPosts s ++ [to_PostData post fp]) (calls s) (out s)
                    (acc s ++ [ARead; AWrite])).
    destruct (IH pds' s1 eq_refl) as (s' & Hrun & Hposts & Hcalls).
    exists s'; split; [|split].
    + simpl; unfold bind, assert_FeedPost; rewrite Er; simpl.
      exact Hrun.
    + rewrite Hposts; simpl; rewrite <- app_assoc; reflexivity.
    + rewrite Hcalls; reflexivity.
Qed.

Lemma push_all_panic pl s :
  (exists post, In post pl /\ is_FeedPost (pv_Record post) = false) ->
  exists msg s', push_all pl s = Panic msg s'.
Proof.
  revert s; induction pl as [|post rest IH]; intros s (q & Hin & Hq).
  - destruct Hin.
  - simpl; unfold bind at 1, assert_FeedPost.
    destruct (pv_Record post) as [fp|t] eqn:Er.
    + destruct Hin as [<-|Hin]; [rewrite Er in Hq; discriminate|].
      simpl.
      destruct (IH (mkSt (allPosts s ++ [to_PostData post fp]) (calls s) (out s)
                         (acc s ++ [ARead; AWrite]))) as (msg & s' & H);
        [exists q; auto|].
      exists msg, s'; exact H.
    + eexists; eexists; reflexivity.
Qed.

(** ** C1: a refresh appends, it does not replace *)

(** C1 (counterexample): with [P2] already stored and a fetched window
    holding only [P1], [updatePosts] leaves [P2] in the store: the result
    is [P2; P1], not the fetched window [P1]. *)
Lemma C1_refresh_keeps_prior_items :
  window_PostData (filter_author did_x (timeline 0)) = Some [P1] /\
  allPosts (final (updatePosts w_grow "carl.cx" 100 (st_of [P2]))) = [P2; P1] /\
  In P2 (allPosts (final (updatePosts w_grow "carl.cx" 100 (st_of [P2])))).
Proof. vm_compute; auto. Qed.

(** C1 (amended): when [updatePosts] (the initial load, and the refresh
    of a periodic check) fetches a window whose records are all feed posts,
    it adds the window to the store instead of replacing it: afterwards the
    store holds exactly its prior items together with the fetched window
    (as a multiset, order aside), so no prior item is removed. *)
Theorem C1_refresh_adds_window w handle limit s did feed pds :
  w_resolve w (length (calls s)) handle = ROk did ->
  w_feed w (S (length (calls s))) did 100 = ROk feed ->
  window_PostData (filter_author did feed) = Some pds ->
  exists s', updatePosts w handle limit s = Ok tt s' /\
             Permutation (allPosts s') (allPosts s ++ pds).
Proof.
  intros Hr Hf Hw.
  unfold updatePosts.
  rewrite (bind_Ok _ _ _ _ _ (getHandlePostList_ok w handle 100 s did feed Hr Hf)).
  unfold bind at 1, emit; simpl.
  match goal with
  | |- exists s', push_all _ ?s1 = _ /\ _ =>
      destruct (push_all_ok _ _ s1 Hw) as (s' & Hrun & Hposts & _)
  end.
  exists s'; split; [exact Hrun|].
  rewrite Hposts; reflexivity.
Qed.

Lemma C1_refresh_adds_window_witness :
  w_resolve w_grow (length (calls (st_of [P2]))) "carl.cx" = ROk did_x /\
  w_feed w_grow (S (length (calls (st_of [P2])))) did_x 100 = ROk (timeline 0) /\
  window_PostData (filter_author did_x (timeline 0)) = Some [P1] /\
  exists s', updatePosts w_grow "carl.cx" 100 (st_of [P2]) = Ok tt s' /\
             Permutation (allPosts s') (allPosts (st_of [P2]) ++ [P1]).
Proof.
  split; [reflexivity|]; split; [reflexivity|]; split; [reflexivity|].
  apply (C1_refresh_adds_window w_grow "carl.cx" 100 (st_of [P2])
           did_x (timeline 0) [P1]); reflexivity.
Defined.

(** ** C5: no refresh when the fetched newest post is not newer *)

(** C5: if the periodic check fetches a most-recent post (a feed post)
    whose creation time is not strictly greater, as Go compares strings,
    than the timestamp of the item at position 0 of a non-empty store, the
    check returns and the store is left exactly as it was. *)
Theorem C5_check_not_newer_keeps_store w handle limit s did feed p0 rest fp top others :
  w_resolve w (length (calls s)) handle = ROk did ->
  w_feed w (S (length (calls s))) did 1 = ROk feed ->
  filter_author did feed = p0 :: rest ->
  pv_Record p0 = RecFeedPost fp ->
  allPosts s = top :: others ->
  String.leb (fp_CreatedAt fp) (Timestamp top) = true ->
  exists s', checkForNewPosts w handle limit s = Ok tt s' /\
             allPosts s' = allPosts s.
Proof.
  intros Hr Hf Hl Hp Hs Hle.
  unfold checkForNewPosts.
  rewrite (bind_Ok _ _ _ _ _ (getHandlePostList_ok w handle 1 s did feed Hr Hf)).
  rewrite Hl.
  unfold bind, assert_FeedPost, heap_Get, touch, ret; rewrite Hp; simpl.
  rewrite Hs; simpl.
  rewrite Hle.
  eexists; split; [reflexivity|]; reflexivity.
Qed.

Lemma C5_check_not_newer_keeps_store_witness :
  exists s', checkForNewPosts w_grow "carl.cx" 100 (st_of [P2]) = Ok tt s' /\
             allPosts s' = allPosts (st_of [P2]).
Proof.
  apply (C5_check_not_newer_keeps_store w_grow "carl.cx" 100 (st_of [P2]) did_x
           [mkFeedViewPost pv1] pv1 [] fp1 P2 []); reflexivity.
Defined.

(** ** C10: a record that is not a feed post makes the refresh panic *)

(** C10: the type assertion [post.Record.Val.( *bsky.FeedPost)] is
    unchecked: if a fetched post of the account carries another record
    type, [updatePosts] panics when it reaches it, and so does
    [checkForNewPosts] when it is the most recent post; neither skips the
    post nor returns an error. *)
Theorem C10_non_feedpost_record_panics w handle limit s did feed :
  w_resolve w (length (calls s)) handle = ROk did ->
  (w_feed w (S (length (calls s))) did 100 = ROk feed ->
   (exists post, In post (filter_author did feed) /\
                 is_FeedPost (pv_Record post) = false) ->
   exists msg s', updatePosts w handle limit s = Panic msg s') /\
  (w_feed w (S (length (calls s))) did 1 = ROk feed ->
   (exists post rest, filter_author did feed = post :: rest /\
                      is_FeedPost (pv_Record post) = false) ->
   exists msg s', checkForNewPosts w handle limit s = Panic msg s').
Proof.
  intros Hr; split.
  - intros Hf Hex.
    unfold updatePosts.
    rewrite (bind_Ok _ _ _ _ _ (getHandlePostList_ok w handle 100 s did feed Hr Hf)).
    unfold bind at 1, emit; simpl.
    apply push_all_panic; exact Hex.
  - intros Hf (post & rest & Hl & Hp).
    unfold checkForNewPosts.
    rewrite (bind_Ok _ _ _ _ _ (getHandlePostList_ok w handle 1 s did feed Hr Hf)).
    rewrite Hl.
    unfold bind, assert_FeedPost.
    destruct (pv_Record post); [discriminate|].
    eexists; eexists; reflexivity.
Qed.

Lemma C10_non_feedpost_record_panics_witness :
  (exists msg s', updatePosts w_other "carl.cx" 100 (st_of [P1]) = Panic msg s') /\
  (exists msg s', checkForNewPosts w_other "carl.cx" 100 (st_of [P1]) = Panic msg s').
Proof.
  destruct (C10_non_feedpost_record_panics w_other "carl.cx" 100 (st_of [P1]) did_x
              [mkFeedViewPost pv_other] eq_refl) as [H1 H2].
  split.
  - apply H1; [reflexivity|]. exists pv_other; split; [left; reflexivity|reflexivity].
  - apply H2; [reflexivity|]. exists pv_other, []; split; reflexivity.
Defined.

(** ** C2: a fetch failure during a periodic check ends the process *)

(** C2 (failing input): the initial load succeeds, then the author-feed
    request of the first periodic check fails; [getHandlePostList] calls
    [log.Fatalf], so the process exits instead of logging the error in
    [checkForNewPosts] and keeping the store. *)
Theorem C2_periodic_fetch_failure_exits :
  exists s, main_run w_fail 1 =
            Exit "Oh no! Error fetching feed: context deadline exceeded" s /\
            allPosts s = [P1].
Proof. exists (final (main_run w_fail 1)); vm_compute; auto. Qed.

(** ** C3: the handle is resolved again for every fetch *)

Lemma logs_mono (L L' : list Call -> Prop) {A} (m : M A) :
  logs L m -> (forall b, L b -> L' b) -> logs L' m.
Proof.
  intros Hm HL s; destruct (Hm s) as (b & r & Hb & He & Hok).
  exists b, r; auto.
Qed.

Lemma logs_bind (L1 L2 : list Call -> Prop) {A B} (m : M A) (k : A -> M B) :
  (exists b, L2 b) -> logs L1 m -> (forall a, logs L2 (k a)) ->
  logs (seq_calls L1 L2) (bind m k).
Proof.
  intros [b0 Hb0] Hm Hk s.
  destruct (Hm s) as (b1 & r1 & Hb1 & He1 & Hok1).
  unfold bind.
  destruct (m s) as [a s1|e s1|e s1]; simpl in *.
  - rewrite (Hok1 eq_refl), app_nil_r in He1.
    destruct (Hk a s1) as (b2 & r2 & Hb2 & He2 & Hok2).
    exists (b1 ++ b2), r2; split; [exists b1, b2; auto|].
    split; [rewrite app_assoc, He1; exact He2|exact Hok2].
  - exists (b1 ++ b0), (r1 ++ b0); split; [exists b1, b0; auto|].
    split; [rewrite !app_assoc, He1; reflexivity|discriminate].
  - exists (b1 ++ b0), (r1 ++ b0); split; [exists b1, b0; auto|].
    split; [rewrite !app_assoc, He1; reflexivity|discriminate].
Qed.

(** A computation that leaves the call log alone adds the empty sequence. *)
Lemma logs_frame {A} (m : M A) :
  (forall c0, keeps (calls_is c0) m) -> logs (eq []) m.
Proof.
  intros Hk s; exists [], []; split; [reflexivity|].
  rewrite !app_nil_r; split; [symmetry; apply (Hk (calls s) s); reflexivity|auto].
Qed.

(** A prefix computation that leaves the call log alone. *)
Lemma logs_bind_frame (L : list Call -> Prop) {A B} (m : M A) (k : A -> M B) :
  (exists b, L b) -> (forall c0, keeps (calls_is c0) m) -> (forall a, logs L (k a)) ->
  logs L (bind m k).
Proof.
  intros HL Hm Hk.
  apply (logs_mono (seq_calls (eq []) L)).
  - apply logs_bind; auto; apply logs_frame; exact Hm.
  - intros b (l1 & l2 & -> & <- & Hl2); exact Hl2.
Qed.

Create HintDb calls_frame.
#[local] Hint Resolve keeps_bind keeps_ret keeps_fatal keeps_panic : calls_frame.

Lemma keeps_calls_emit c0 e : keeps (calls_is c0) (emit e).
Proof. intros s Hs; exact Hs. Qed.

Lemma keeps_calls_heap_Push c0 x : keeps (calls_is c0) (heap_Push x).
Proof. intros s Hs; exact Hs. Qed.

Lemma keeps_calls_heap_Get c0 i : keeps (calls_is c0) (heap_Get i).
Proof.
  intros s Hs; unfold heap_Get, bind, touch; simpl.
  destruct (Get _ i); exact Hs.
Qed.

Lemma keeps_calls_assert c0 r : keeps (calls_is c0) (assert_FeedPost r).
Proof. destruct r; intros s Hs; exact Hs. Qed.

#[local] Hint Resolve keeps_calls_emit keeps_calls_heap_Push keeps_calls_heap_Get
  keeps_calls_assert : calls_frame.

Lemma keeps_calls_push_all c0 pl : keeps (calls_is c0) (push_all pl).
Proof.
  induction pl as [|post rest IH]; simpl; auto with calls_frame.
Qed.

#[local] Hint Resolve keeps_calls_push_all : calls_frame.

Lemma fetch_calls_inhabited handle limit : exists b, fetch_calls handle limit b.
Proof. eexists; exists ""%string; reflexivity. Qed.

Lemma logs_getHandlePostList w handle limit :
  logs (fetch_calls handle limit) (getHandlePostList w handle limit).
Proof.
  intros s; unfold getHandlePostList, bind, remote, fatal, ret; simpl.
  destruct (w_resolve w _ handle) as [did|e]; simpl.
  - destruct (w_feed w _ did limit) as [feed|e']; simpl;
      (exists [CResolveHandle handle; CGetAuthorFeed did "posts_no_replies" false limit], [];
       split; [exists did; reflexivity|];
       split; [rewrite <- !app_assoc; reflexivity|auto]).
  - exists [CResolveHandle handle; CGetAuthorFeed "" "posts_no_replies" false limit],
           [CGetAuthorFeed "" "posts_no_replies" false limit].
    split; [exists ""%string; reflexivity|].
    split; [rewrite <- !app_assoc; reflexivity|discriminate].
Qed.

Lemma logs_updatePosts w handle limit :
  logs (fetch_calls handle 100) (updatePosts w handle limit).
Proof.
  unfold updatePosts.
  apply (logs_mono (seq_calls (fetch_calls handle 100) (eq []))).
  - apply logs_bind; [exists []; reflexivity|apply logs_getHandlePostList|].
    intros [pl [e|]]; apply logs_frame; intros c0; auto with calls_frame.
  - intros b (l1 & l2 & -> & Hl1 & <-); rewrite app_nil_r; exact Hl1.
Qed.

Lemma logs_checkForNewPosts w handle limit :
  logs (check_calls handle) (checkForNewPosts w handle limit).
Proof.
  unfold checkForNewPosts.
  set (L2 := fun b => b = [] \/ fetch_calls handle 100 b).
  assert (HL2 : exists b, L2 b) by (exists []; left; reflexivity).
  assert (Hnil : forall {A} (m : M A), (forall c0, keeps (calls_is c0) m) -> logs L2 m)
    by (intros A m Hm; apply (logs_mono (eq [])); [apply logs_frame; exact Hm|];
        intros b <-; left; reflexivity).
  apply (logs_mono (seq_calls (fetch_calls handle 1) L2)).
  - apply logs_bind; [exact HL2|apply logs_getHandlePostList|].
    intros [[|p0 rest] [e|]]; try solve [apply Hnil; intros c0; auto with calls_frame].
    apply logs_bind_frame; [exact HL2|auto with calls_frame|intros fp].
    apply logs_bind_frame; [exact HL2|auto with calls_frame|intros top].
    destruct (String.leb _ _).
    + apply Hnil; intros c0; auto with calls_frame.
    + apply (logs_mono (fetch_calls handle 100)); [apply logs_updatePosts|].
      intros b Hb; right; exact Hb.
  - intros b (l1 & l2 & -> & Hl1 & [-> | Hl2]).
    + left; rewrite app_nil_r; exact Hl1.
    + right; exists l1, l2; auto.
Qed.

Lemma logs_ticker_loop w handle n :
  logs (checks_calls handle n) (ticker_loop w handle n).
Proof.
  induction n as [|n IH]; simpl.
  - apply (logs_mono (eq [])); [apply logs_frame; intros c0; auto with calls_frame|].
    intros b <-; exists []; simpl; auto.
  - apply (logs_mono (seq_calls (checks_calls handle n) (check_calls handle))).
    + apply logs_bind; [|exact IH|].
      * destruct (fetch_calls_inhabited handle 1) as [b Hb]; exists b; left; exact Hb.
      * intros _; apply logs_bind_frame; auto with calls_frame.
        -- destruct (fetch_calls_inhabited handle 1) as [b Hb]; exists b; left; exact Hb.
        -- intros _; apply logs_checkForNewPosts.
    + intros b (l1 & l2 & -> & (cs & Hcs & Hlen & ->) & Hl2).
      exists (cs ++ [l2]); split; [apply Forall_app; auto|].
      rewrite length_app, concat_app; simpl; rewrite app_nil_r; split; [lia|reflexivity].
Qed.

(** C3 (counterexample): after the initial load and one periodic check
    that refreshes, the handle has been resolved three times. *)
Lemma C3_handle_resolved_three_times :
  count_resolve (calls (final (main_run w_grow 1))) = 3%nat.
Proof. vm_compute; reflexivity. Qed.

(** C3 (amended): in every run of the program, whatever the remote
    service answers and however many periodic checks it performs, the
    call log is the startup load's resolution of the handle and request
    for 100 posts, then for each check a resolution and a request for 1
    post, followed, when the check refreshes, by another resolution and a
    request for 100 posts.  A run that ends normally has made exactly
    these calls; one that exits or panics stops partway through them.  So
    the handle is resolved once for every feed request: once at startup,
    once per check, twice for a check that refreshes. *)
Theorem C3_resolved_once_per_fetch w ticks :
  exists load checks rest,
    fetch_calls "carl.cx" 100 load /\
    Forall (check_calls "carl.cx") checks /\ length checks = ticks /\
    load ++ concat checks = calls (final (main_run w ticks)) ++ rest /\
    (is_ok (main_run w ticks) = true -> rest = []).
Proof.
  assert (Hinh : exists b, checks_calls "carl.cx" ticks b).
  { destruct (fetch_calls_inhabited "carl.cx" 1) as [b Hb].
    exists (concat (repeat b ticks)), (repeat b ticks).
    split; [apply Forall_forall; intros x Hx; apply repeat_spec in Hx; subst; left; exact Hb|].
    rewrite repeat_length; auto. }
  assert (H : logs (seq_calls (fetch_calls "carl.cx" 100) (checks_calls "carl.cx" ticks))
                   (emit (OutFetching "carl.cx") ;;; updatePosts w "carl.cx" 100 ;;;
                    ticker_loop w "carl.cx" ticks)).
  { apply logs_bind_frame; [|auto with calls_frame|intros _].
    - destruct (fetch_calls_inhabited "carl.cx" 100) as [b1 Hb1].
      destruct Hinh as [b2 Hb2]; exists (b1 ++ b2), b1, b2; auto.
    - apply logs_bind; [exact Hinh|apply logs_updatePosts|].
      intros _; apply logs_ticker_loop. }
  destruct (H init_st) as (b & r & (load & l2 & -> & Hload & (cs & Hcs & Hlen & ->)) & He & Hok).
  exists load, cs, r; repeat split; auto.
Qed.

(** ** C4: position 0 does not hold the newest post after a refresh *)

(** C4 (failing input): the account posts [P1], then [P2]; the feed is
    newest first.  After the initial load and one periodic check that
    refreshes, the store is [P1; P2; P1]: [Push] appended the window
    without restoring heap order, so position 0 holds [P1] while the newer
    [P2] is in the store. *)
Theorem C4_newest_not_at_position_0 :
  exists s, main_run w_grow 1 = Ok tt s /\
            allPosts s = [P1; P2; P1] /\
            Get (allPosts s) 0 = Some P1 /\
            String.ltb (Timestamp P1) (Timestamp P2) = true.
Proof. exists (final (main_run w_grow 1)); vm_compute; auto. Qed.

(** ** C6: a check on an empty store panics *)

(** C6 (failing input): the account has no post at the initial load, so
    the store stays empty; at the first periodic check it has one post,
    and [checkForNewPosts] calls [allPosts.Get(0)] on the empty store,
    which panics instead of refreshing. *)
Theorem C6_check_on_empty_store_panics :
  exists s, main_run w_late 1 = Panic "Index out of bounds" s /\
            allPosts s = [].
Proof. exists (final (main_run w_late 1)); vm_compute; auto. Qed.

(** ** C7: the responses of [GET /] *)

(** An empty store gives 404 with a plain-text body. *)
Lemma handler_empty_404 rng conn s :
  allPosts s = [] ->
  exists s', randomPostHandler rng conn s =
    Ok (Some (mkResponse 404
                [("X-Content-Type-Options", "nosniff");
                 ("Content-Type", "text/plain; charset=utf-8")]%string
                [CText ("No posts available" ++ newline)]))
       s'.
Proof.
  intros Hs; unfold randomPostHandler, heap_Len, bind, touch, ret; simpl.
  rewrite Hs; simpl.
  destruct conn; eexists; reflexivity.
Qed.

(** C7 (failing input): the store holds a post with an 8 KiB text, and
    the client connection is broken.  The encoded post does not fit the
    response buffer, so [Encode] hands it down at once, which commits
    status 200 with [Content-Type: application/json]; the connection
    refuses it and [Encode] returns the error.  The [http.Error(..., 500)]
    that follows is a superfluous [WriteHeader], and its text meets the
    buffer's sticky error: the response keeps status 200, never 500. *)
Theorem C7_encode_failure_keeps_status_200 :
  snd (Encode (set_header "Content-Type" "application/json" (rw0 false)) P_big) = true /\
  exists s, randomPostHandler [0] false (st_of [P_big]) =
            Ok (Some (mkResponse 200 [("Content-Type", "application/json")]%string []))
               s.
Proof.
  split; [vm_compute; reflexivity|].
  exists (final (randomPostHandler [0] false (st_of [P_big]))); vm_compute; reflexivity.
Qed.

(** ** C8: the sampled index is in bounds *)

(** On a working connection a non-empty write is accepted. *)
Lemma Write_conn_ok c w :
  rw_conn_ok w = true -> rw_err w = false -> chunk_size c <> 0%nat ->
  exists buf low, Write c w =
    (mkRW (rw_hdr (WriteHeader 200 w)) (rw_sent (WriteHeader 200 w))
          (rw_body (WriteHeader 200 w) ++ [c]) true buf low false, false).
Proof.
  intros Hc He Hn.
  assert (Hc1 : rw_conn_ok (WriteHeader 200 w) = true)
    by (unfold WriteHeader; destruct (rw_sent w); exact Hc).
  assert (He1 : rw_err (WriteHeader 200 w) = false)
    by (unfold WriteHeader; destruct (rw_sent w); exact He).
  unfold Write.
  destruct (chunk_size c =? 0)%nat eqn:E; [apply Nat.eqb_eq in E; contradiction|].
  rewrite Hc1, He1; unfold bufio_Write, low_write; cbn [orb].
  clear E; set (w1 := WriteHeader 200 w) in *.
  destruct (chunk_size c <=? bufferBeforeChunkingSize - rw_buf w1)%nat;
    [do 2 eexists; reflexivity|].
  destruct (rw_buf w1 =? 0)%nat; [do 2 eexists; reflexivity|].
  destruct (chunk_size c - (bufferBeforeChunkingSize - rw_buf w1)
              <=? bufferBeforeChunkingSize)%nat; do 2 eexists; reflexivity.
Qed.

Lemma Encode_conn_ok w p :
  rw_conn_ok w = true -> rw_err w = false ->
  exists buf low, Encode w p =
    (mkRW (rw_hdr (WriteHeader 200 w)) (rw_sent (WriteHeader 200 w))
          (rw_body (WriteHeader 200 w) ++ [CJson (post_json p)]) true buf low false, false).
Proof. intros Hc He; apply Write_conn_ok; auto; discriminate. Qed.

Lemma land_le_r_nonneg a b : 0 <= a -> 0 <= b -> Z.land a b <= b.
Proof.
  intros Ha Hb.
  rewrite <- (Z2N.id a Ha), <- (Z2N.id b Hb).
  rewrite <- N2Z.inj_land.
  apply N2Z.inj_le, N.land_le_r.
Qed.

Lemma reject_loop_bounds next draws n max i rest :
  0 < n ->
  (forall d, 0 <= d -> 0 <= next d) ->
  Forall (fun d => 0 <= d) draws ->
  reject_loop next draws n max = Some (i, rest) -> 0 <= i < n.
Proof.
  intros Hn Hnext; induction draws as [|d ds IH]; simpl; [discriminate|].
  intros Hall; inversion Hall as [|? ? Hd Hds]; subst.
  destruct (next d >? max); [apply IH; auto|].
  intros H; inversion H; subst.
  apply Z.rem_bound_pos; auto.
Qed.

Lemma IntNn_bounds bits next draws n i rest :
  0 < n ->
  (forall d, 0 <= d -> 0 <= next d) ->
  Forall (fun d => 0 <= d) draws ->
  IntNn bits next draws n = Some (i, rest) -> 0 <= i < n.
Proof.
  intros Hn Hnext Hall; unfold IntNn.
  destruct (Z.land n (n - 1) =? 0).
  - destruct draws as [|d ds]; [discriminate|].
    inversion Hall as [|? ? Hd _]; subst.
    intros H; inversion H; subst.
    pose proof (Hnext d Hd).
    split; [apply Z.land_nonneg; auto|].
    pose proof (land_le_r_nonneg (next d) (n - 1)); lia.
  - apply reject_loop_bounds; auto.
Qed.

(** [rand.Intn(n)], for [n > 0] and a source producing [Int63] values,
    returns an index in [[0, n)]. *)
Lemma Intn_bounds draws n i rest :
  0 < n ->
  Forall (fun d => 0 <= d < 2 ^ 63) draws ->
  Intn draws n = Some (i, rest) -> 0 <= i < n.
Proof.
  intros Hn Hall.
  assert (Hall' : Forall (fun d => 0 <= d) draws).
  { eapply Forall_impl; [|exact Hall]; simpl; intros d Hd; lia. }
  unfold Intn, Int31n, Int63n.
  destruct (n <=? 2 ^ 31 - 1); apply IntNn_bounds; auto.
  intros d Hd; unfold Int31; apply Z.shiftr_nonneg; exact Hd.
Qed.

Lemma Get_in_bounds h i :
  0 <= i < Z.of_nat (length h) -> exists p, Get h i = Some p /\ In p h.
Proof.
  intros Hi; unfold Get.
  replace ((i <? 0) || (i >=? Z.of_nat (length h))) with false
    by (symmetry; apply orb_false_iff; split; [apply Z.ltb_ge | rewrite Z.geb_leb; apply Z.leb_gt]; lia).
  destruct (nth_error h (Z.to_nat i)) as [p|] eqn:E.
  - exists p; split; [reflexivity|]; eapply nth_error_In; exact E.
  - apply nth_error_None in E; lia.
Qed.

(** C8: on a non-empty store, with a random source producing [Int63]
    values, the index drawn by [rand.Intn(allPosts.Len())] is in bounds,
    the handler never panics (in particular not in [Get]), and whenever
    the draw completes and the response is written, its body is the JSON
    encoding of a member of the store. *)
Theorem C8_sample_in_bounds rng conn s :
  allPosts s <> [] ->
  Forall (fun d => 0 <= d < 2 ^ 63) rng ->
  (forall i rest, Intn rng (Z.of_nat (length (allPosts s))) = Some (i, rest) ->
     exists p, Get (allPosts s) i = Some p /\ In p (allPosts s)) /\
  match randomPostHandler rng conn s with
  | Ok None _ => True
  | Ok (Some r) _ =>
      conn = true -> exists p, In p (allPosts s) /\ body r = [CJson (post_json p)]
  | Exit _ _ | Panic _ _ => False
  end.
Proof.
  intros Hne Hrng.
  assert (Hlen : 0 < Z.of_nat (length (allPosts s)))
    by (destruct (allPosts s); [congruence|simpl; lia]).
  assert (Hpick : forall i rest, Intn rng (Z.of_nat (length (allPosts s))) = Some (i, rest) ->
            exists p, Get (allPosts s) i = Some p /\ In p (allPosts s)).
  { intros i rest H; apply Get_in_bounds; eapply Intn_bounds; eauto. }
  split; [exact Hpick|].
  unfold randomPostHandler, heap_Len, heap_Get, bind, touch, ret, panic; simpl.
  cbn [allPosts calls out acc].
  replace (Z.of_nat (length (allPosts s)) =? 0) with false by (symmetry; apply Z.eqb_neq; lia).
  cbn [allPosts calls out acc].
  replace (Z.of_nat (length (allPosts s)) <=? 0) with false by (symmetry; apply Z.leb_gt; lia).
  destruct (Intn rng (Z.of_nat (length (allPosts s)))) as [[i rest]|] eqn:Ed; [|exact I].
  destruct (Hpick i rest eq_refl) as (p & Hp & Hin).
  cbn [allPosts calls out acc].
  rewrite Hp.
  destruct conn.
  - destruct (Encode_conn_ok (set_header "Content-Type" "application/json" (rw0 true)) p
                eq_refl eq_refl) as (buf & low & HE).
    rewrite HE; simpl; intros _.
    exists p; split; [exact Hin|reflexivity].
  - destruct (Encode _ _) as [w2 []]; simpl; intros Hc; discriminate.
Qed.

Lemma C8_sample_in_bounds_witness :
  (forall i rest, Intn [3 * 2 ^ 60] 2 = Some (i, rest) ->
     exists p, Get [P1; P2] i = Some p /\ In p [P1; P2]) /\
  match randomPostHandler [3 * 2 ^ 60] true (st_of [P1; P2]) with
  | Ok None _ => True
  | Ok (Some r) _ =>
      true = true -> exists p, In p [P1; P2] /\ body r = [CJson (post_json p)]
  | Exit _ _ | Panic _ _ => False
  end.
Proof.
  apply (C8_sample_in_bounds [3 * 2 ^ 60] true (st_of [P1; P2])).
  - discriminate.
  - repeat constructor; lia.
Defined.

(** ** C9: accesses to [allPosts] are not synchronised *)

(** From [a0] on, the access log grows only by reads and writes. *)
Definition lockfree_from (a0 : list Access) (s : St) : Prop :=
  exists d, acc s = a0 ++ d /\ no_lock d = true.

Create HintDb acc_log.
#[local] Hint Resolve keeps_bind keeps_ret keeps_fatal keeps_panic : acc_log.

Lemma keeps_acc_emit a0 e : keeps (lockfree_from a0) (emit e).
Proof. intros s Hs; exact Hs. Qed.

Lemma keeps_acc_remote a0 {A} c (f : nat -> RResult A) :
  keeps (lockfree_from a0) (remote c f).
Proof. intros s Hs; exact Hs. Qed.

Lemma keeps_acc_touch a0 a : no_lock a = true -> keeps (lockfree_from a0) (touch a).
Proof.
  intros Ha s (d & Hd & Hn); simpl.
  exists (d ++ a); split.
  - rewrite Hd, app_assoc; reflexivity.
  - unfold no_lock in *; rewrite forallb_app, Hn, Ha; reflexivity.
Qed.

Lemma keeps_acc_read a0 {A} (f : St -> A) :
  keeps (lockfree_from a0) (fun s => Ok (f s) s).
Proof. intros s Hs; exact Hs. Qed.

#[local] Hint Resolve keeps_acc_emit keeps_acc_remote keeps_acc_read : acc_log.
#[local] Hint Extern 1 (keeps _ (touch _)) =>
  apply keeps_acc_touch; reflexivity : acc_log.

Lemma keeps_acc_heap_Push a0 x : keeps (lockfree_from a0) (heap_Push x).
Proof.
  unfold heap_Push; apply keeps_bind; eauto with acc_log.
  intros [] s Hs; exact Hs.
Qed.

Lemma keeps_acc_heap_Get a0 i : keeps (lockfree_from a0) (heap_Get i).
Proof.
  unfold heap_Get; apply keeps_bind; eauto with acc_log.
  intros [] s Hs; simpl; destruct (Get _ i); exact Hs.
Qed.

Lemma keeps_acc_heap_Len a0 : keeps (lockfree_from a0) heap_Len.
Proof.
  unfold heap_Len; apply keeps_bind; eauto with acc_log.
Qed.

#[local] Hint Resolve keeps_acc_heap_Push keeps_acc_heap_Get keeps_acc_heap_Len : acc_log.

Lemma keeps_acc_getHandlePostList a0 w handle limit :
  keeps (lockfree_from a0) (getHandlePostList w handle limit).
Proof.
  unfold getHandlePostList; apply keeps_bind; eauto with acc_log.
  intros [did|e]; eauto with acc_log.
  apply keeps_bind; eauto with acc_log.
  intros [feed|e']; eauto with acc_log.
Qed.

#[local] Hint Resolve keeps_acc_getHandlePostList : acc_log.

Lemma keeps_acc_push_all a0 pl : keeps (lockfree_from a0) (push_all pl).
Proof.
  induction pl as [|post rest IH]; simpl; eauto with acc_log.
  apply keeps_bind; [destruct (pv_Record post); unfold assert_FeedPost;
                     eauto with acc_log|].
  intros fp; apply keeps_bind; eauto with acc_log.
Qed.

#[local] Hint Resolve keeps_acc_push_all : acc_log.

Lemma keeps_acc_updatePosts a0 w handle limit :
  keeps (lockfree_from a0) (updatePosts w handle limit).
Proof.
  unfold updatePosts; apply keeps_bind; eauto with acc_log.
  intros [pl [e|]]; eauto with acc_log.
Qed.

#[local] Hint Resolve keeps_acc_updatePosts : acc_log.

Lemma keeps_acc_checkForNewPosts a0 w handle limit :
  keeps (lockfree_from a0) (checkForNewPosts w handle limit).
Proof.
  unfold checkForNewPosts; apply keeps_bind; eauto with acc_log.
  intros [[|p0 rest] [e|]]; eauto with acc_log.
  apply keeps_bind; [destruct (pv_Record p0); unfold assert_FeedPost;
                     eauto with acc_log|].
  intros fp; apply keeps_bind; eauto with acc_log.
  intros top; destruct (String.leb _ _); eauto with acc_log.
Qed.

#[local] Hint Resolve keeps_acc_checkForNewPosts : acc_log.

Lemma keeps_acc_ticker_loop a0 w handle n :
  keeps (lockfree_from a0) (ticker_loop w handle n).
Proof.
  induction n as [|n IH]; simpl; eauto with acc_log.
Qed.

Lemma accesses_of_lockfree {A} (m : M A) s :
  keeps (lockfree_from (acc s)) m -> no_lock (accesses m s) = true.
Proof.
  intros Hk.
  destruct (Hk s) as (d & Hd & Hn); [exists []; rewrite app_nil_r; auto|].
  unfold accesses; rewrite Hd, skipn_app, Nat.sub_diag, skipn_all; exact Hn.
Qed.

Lemma handler_accesses rng conn s :
  exists d, accesses (randomPostHandler rng conn) s = ARead :: d /\
            no_lock d = true.
Proof.
  unfold accesses, randomPostHandler, heap_Len, heap_Get, bind, touch, ret, panic.
  simpl; cbn [allPosts calls out acc].
  repeat (match goal with
          | |- context [Z.eqb ?a ?b] => destruct (Z.eqb a b)
          | |- context [Z.leb ?a ?b] => destruct (Z.leb a b)
          | |- context [Intn ?a ?b] => destruct (Intn a b) as [[? ?]|]
          | |- context [Get ?a ?b] => destruct (Get a b)
          | |- context [Encode ?a ?b] => destruct (Encode a b) as [? []]
          end; simpl; cbn [allPosts calls out acc]);
    rewrite <- ?app_assoc, skipn_app, Nat.sub_diag, skipn_all; simpl;
    eexists; split; reflexivity.
Qed.

Lemma no_lock_cons a l :
  no_lock (a :: l) = true -> (a = ARead \/ a = AWrite) /\ no_lock l = true.
Proof.
  unfold no_lock; simpl; destruct a; simpl; try discriminate; auto.
Qed.

Lemma interleaving_lockfree_schedulable t xs ys :
  Interleaving t xs ys -> no_lock xs = true -> no_lock ys = true ->
  schedulable None t = true.
Proof.
  induction 1 as [|a t xs ys H IH|a t xs ys H IH]; intros Hx Hy; [reflexivity| |].
  - apply no_lock_cons in Hx as [[-> | ->] Hx]; simpl; auto.
  - apply no_lock_cons in Hy as [[-> | ->] Hy]; simpl; auto.
Qed.

Lemma interleaving_lockfree_unguarded t x xs ys :
  Interleaving t (x :: xs) ys -> no_lock (x :: xs) = true -> no_lock ys = true ->
  guarded None t = false.
Proof.
  intros H Hx Hy; inversion H as [|a t' xs' ys' H'|a t' xs' ys' H']; subst.
  - apply no_lock_cons in Hx as [[-> | ->] _]; reflexivity.
  - apply no_lock_cons in Hy as [[-> | ->] _]; reflexivity.
Qed.

(** C9 (counterexample): nothing orders the handler after or before a
    refresh.  Here the ticker goroutine runs a check that refreshes (a
    read in [Get(0)], then two [Push]es) between the handler's first
    [allPosts.Len()] and its second one and its [Get]; the schedule can
    run, and the accesses are not made under any lock. *)
Lemma C9_refresh_interleaves_with_handler :
  let s_loaded :=
    final ((emit (OutFetching "carl.cx") ;;; updatePosts w_grow "carl.cx" 100) init_st) in
  let t := [(1%nat, ARead);
            (2%nat, ARead); (2%nat, ARead); (2%nat, AWrite);
            (2%nat, ARead); (2%nat, AWrite);
            (1%nat, ARead); (1%nat, ARead)] in
  Interleaving t (accesses (randomPostHandler [0] true) s_loaded)
                 (accesses (ticker_loop w_grow "carl.cx" 1) s_loaded) /\
  schedulable None t = true /\ guarded None t = false.
Proof.
  vm_compute.
  split; [repeat constructor|split; reflexivity].
Qed.

(** C9 (amended): the store has no synchronisation.  For every run of a
    request handler and every run of the ticker goroutine (any world, any
    number of checks, any starting states), neither takes or releases a
    mutex around its accesses to [allPosts]; so every interleaving of them
    can be scheduled, and in none of them are the accesses made while
    holding a lock. *)
Theorem C9_no_mutual_exclusion rng conn s_h w handle ticks s_r t :
  Interleaving t (accesses (randomPostHandler rng conn) s_h)
                 (accesses (ticker_loop w handle ticks) s_r) ->
  no_lock (accesses (randomPostHandler rng conn) s_h) = true /\
  no_lock (accesses (ticker_loop w handle ticks) s_r) = true /\
  schedulable None t = true /\ guarded None t = false.
Proof.
  intros Hil.
  destruct (handler_accesses rng conn s_h) as (d & Hd & Hn).
  assert (Hr : no_lock (accesses (ticker_loop w handle ticks) s_r) = true)
    by (apply accesses_of_lockfree, keeps_acc_ticker_loop).
  rewrite Hd in Hil |- *.
  split; [exact Hn|]; split; [exact Hr|]; split.
  - eapply interleaving_lockfree_schedulable; eauto.
  - eapply interleaving_lockfree_unguarded; eauto.
Qed.

Lemma C9_no_mutual_exclusion_witness :
  let s0 := final ((emit (OutFetching "carl.cx") ;;; updatePosts w_grow "carl.cx" 100) init_st) in
  let t := [(1%nat, ARead);
            (2%nat, ARead); (2%nat, ARead); (2%nat, AWrite);
            (2%nat, ARead); (2%nat, AWrite);
            (1%nat, ARead); (1%nat, ARead)] in
  no_lock (accesses (randomPostHandler [0] true) s0) = true /\
  no_lock (accesses (ticker_loop w_grow "carl.cx" 1) s0) = true /\
  schedulable None t = true /\ guarded None t = false.
Proof.
  intros s0 t.
  apply (C9_no_mutual_exclusion [0] true s0 w_grow "carl.cx" 1 s0 t).
  vm_compute; repeat constructor.
Defined.

(** The non-empty case of [GET /] when the write succeeds: status 200,
    [Content-Type: application/json], and the JSON object of the sampled
    post as body. *)
Lemma handler_nonempty_200 rng s i rest :
  allPosts s <> [] ->
  Forall (fun d => 0 <= d < 2 ^ 63) rng ->
  Intn rng (Z.of_nat (length (allPosts s))) = Some (i, rest) ->
  exists p s', In p (allPosts s) /\
    randomPostHandler rng true s =
    Ok (Some (mkResponse 200 [("Content-Type", "application/json")]%string
                         [CJson (post_json p)])) s'.
Proof.
  intros Hne Hrng Hi.
  assert (Hlen : 0 < Z.of_nat (length (allPosts s)))
    by (destruct (allPosts s); [congruence|simpl; lia]).
  destruct (Get_in_bounds (allPosts s) i) as (p & Hp & Hin);
    [eapply Intn_bounds; eauto|].
  exists p; eexists; split; [exact Hin|].
  unfold randomPostHandler, heap_Len, heap_Get, bind, touch, ret, panic; simpl.
  cbn [allPosts calls out acc].
  replace (Z.of_nat (length (allPosts s)) =? 0) with false by (symmetry; apply Z.eqb_neq; lia).
  cbn [allPosts calls out acc].
  replace (Z.of_nat (length (allPosts s)) <=? 0) with false by (symmetry; apply Z.leb_gt; lia).
  rewrite Hi; cbn [allPosts calls out acc].
  rewrite Hp.
  destruct (Encode_conn_ok (set_header "Content-Type" "application/json" (rw0 true)) p
              eq_refl eq_refl) as (buf & low & HE).
  rewrite HE; reflexivity.
Qed.

(** * Further properties of the code *)

(** ** Fetching keeps exactly the account's own posts *)

Lemma filter_author_spec did feed p :
  In p (filter_author did feed) <->
  In p (map fv_Post feed) /\ pv_AuthorDid p = did.
Proof.
  induction feed as [|f rest IH]; simpl; [tauto|].
  destruct (String.eqb (pv_AuthorDid (fv_Post f)) did) eqn:E.
  - apply String.eqb_eq in E; simpl; rewrite IH.
    split; [intros [<-|[H1 H2]]; auto|intros [[<-|H1] H2]; auto].
  - apply String.eqb_neq in E; rewrite IH.
    split; [intros [H1 H2]; auto|intros [[<-|H1] H2]; [congruence|auto]].
Qed.

(** X: when resolution and the feed request succeed, [getHandlePostList]
    returns no error and a list that holds exactly the posts of the feed
    whose author is the resolved DID (reposts and other authors' posts
    are dropped). *)
Theorem X_getHandlePostList_own_posts w handle limit s did feed :
  w_resolve w (length (calls s)) handle = ROk did ->
  w_feed w (S (length (calls s))) did limit = ROk feed ->
  exists pl s', getHandlePostList w handle limit s = Ok (pl, None) s' /\
    forall p, In p pl <-> In p (map fv_Post feed) /\ pv_AuthorDid p = did.
Proof.
  intros Hr Hf.
  exists (filter_author did feed); eexists; split.
  - apply getHandlePostList_ok; assumption.
  - apply filter_author_spec.
Qed.

Lemma X_getHandlePostList_own_posts_witness :
  exists pl s', getHandlePostList w_repost "carl.cx" 1 (st_of [P1]) = Ok (pl, None) s' /\
    forall p, In p pl <-> In p (map fv_Post [mkFeedViewPost pv1]) /\ pv_AuthorDid p = did_x.
Proof.
  apply (X_getHandlePostList_own_posts w_repost "carl.cx" 1 (st_of [P1]) did_x
           [mkFeedViewPost pv1]); reflexivity.
Defined.

(** ** The store only grows *)

Definition grows_from (l0 : list PostData) (s : St) : Prop :=
  exists d, allPosts s = l0 ++ d.

Create HintDb posts_log.
#[local] Hint Resolve keeps_bind keeps_ret keeps_fatal keeps_panic : posts_log.

Lemma keeps_posts_emit l0 e : keeps (grows_from l0) (emit e).
Proof. intros s Hs; exact Hs. Qed.

Lemma keeps_posts_touch l0 a : keeps (grows_from l0) (touch a).
Proof. intros s Hs; exact Hs. Qed.

Lemma keeps_posts_remote l0 {A} c (f : nat -> RResult A) :
  keeps (grows_from l0) (remote c f).
Proof. intros s Hs; exact Hs. Qed.

Lemma keeps_posts_heap_Push l0 x : keeps (grows_from l0) (heap_Push x).
Proof.
  intros s (d & Hd); simpl; exists (d ++ [x]); rewrite Hd, app_assoc; reflexivity.
Qed.

Lemma keeps_posts_heap_Get l0 i : keeps (grows_from l0) (heap_Get i).
Proof.
  intros s Hs; unfold heap_Get, bind, touch; simpl.
  destruct (Get _ i); exact Hs.
Qed.

#[local] Hint Resolve keeps_posts_emit keeps_posts_touch keeps_posts_remote
  keeps_posts_heap_Push keeps_posts_heap_Get : posts_log.

Lemma keeps_posts_getHandlePostList l0 w handle limit :
  keeps (grows_from l0) (getHandlePostList w handle limit).
Proof.
  unfold getHandlePostList; apply keeps_bind; eauto with posts_log.
  intros [did|e]; eauto with posts_log.
  apply keeps_bind; eauto with posts_log.
  intros [feed|e']; eauto with posts_log.
Qed.

#[local] Hint Resolve keeps_posts_getHandlePostList : posts_log.

Lemma keeps_posts_push_all l0 pl : keeps (grows_from l0) (push_all pl).
Proof.
  induction pl as [|post rest IH]; simpl; eauto with posts_log.
  apply keeps_bind; [destruct (pv_Record post); unfold assert_FeedPost;
                     eauto with posts_log|].
  intros fp; apply keeps_bind; eauto with posts_log.
Qed.

#[local] Hint Resolve keeps_posts_push_all : posts_log.

Lemma keeps_posts_updatePosts l0 w handle limit :
  keeps (grows_from l0) (updatePosts w handle limit).
Proof.
  unfold updatePosts; apply keeps_bind; eauto with posts_log.
  intros [pl [e|]]; eauto with posts_log.
Qed.

#[local] Hint Resolve keeps_posts_updatePosts : posts_log.

Lemma keeps_posts_checkForNewPosts l0 w handle limit :
  keeps (grows_from l0) (checkForNewPosts w handle limit).
Proof.
  unfold checkForNewPosts; apply keeps_bind; eauto with posts_log.
  intros [[|p0 rest] [e|]]; eauto with posts_log.
  apply keeps_bind; [destruct (pv_Record p0); unfold assert_FeedPost;
                     eauto with posts_log|].
  intros fp; apply keeps_bind; eauto with posts_log.
  intros top; destruct (String.leb _ _); eauto with posts_log.
Qed.

#[local] Hint Resolve keeps_posts_checkForNewPosts : posts_log.

(** X: the ticker goroutine never removes or reorders stored posts:
    whatever the remote service answers and however the run ends (normal
    return, exit or panic), after any number of checks the store is its
    earlier contents followed by zero or more new items.  In particular
    the item at position 0, which every check compares against, never
    changes once the store is non-empty. *)
Theorem X_ticker_store_only_grows w handle ticks s :
  exists d, allPosts (final (ticker_loop w handle ticks s)) = allPosts s ++ d.
Proof.
  assert (H : keeps (grows_from (allPosts s)) (ticker_loop w handle ticks)).
  { induction ticks as [|k IH]; simpl; eauto with posts_log. }
  apply H; exists []; rewrite app_nil_r; reflexivity.
Qed.

(** ** A check that finds a newer post refreshes *)

Lemma updatePosts_ok w handle limit s did feed pds :
  w_resolve w (length (calls s)) handle = ROk did ->
  w_feed w (S (length (calls s))) did 100 = ROk feed ->
  window_PostData (filter_author did feed) = Some pds ->
  exists s', updatePosts w handle limit s = Ok tt s' /\
             allPosts s' = allPosts s ++ pds /\
             calls s' = calls s ++ [CResolveHandle handle;
                                    CGetAuthorFeed did "posts_no_replies" false 100].
Proof.
  intros Hr Hf Hw.
  unfold updatePosts.
  rewrite (bind_Ok _ _ _ _ _ (getHandlePostList_ok w handle 100 s did feed Hr Hf)).
  unfold bind at 1, emit; simpl.
  match goal with
  | |- exists s', push_all _ ?s1 = _ /\ _ =>
      destruct (push_all_ok _ _ s1 Hw) as (s' & Hrun & Hposts & Hcalls)
  end.
  exists s'; split; [exact Hrun|split]; [rewrite Hposts|rewrite Hcalls]; reflexivity.
Qed.

Lemma checkForNewPosts_newer w handle limit s did feed1 p0 rest fp top others
      did' feed100 pds :
  w_resolve w (length (calls s)) handle = ROk did ->
  w_feed w (S (length (calls s))) did 1 = ROk feed1 ->
  filter_author did feed1 = p0 :: rest ->
  pv_Record p0 = RecFeedPost fp ->
  allPosts s = top :: others ->
  String.leb (fp_CreatedAt fp) (Timestamp top) = false ->
  w_resolve w (S (S (length (calls s)))) handle = ROk did' ->
  w_feed w (S (S (S (length (calls s))))) did' 100 = ROk feed100 ->
  window_PostData (filter_author did' feed100) = Some pds ->
  exists s', checkForNewPosts w handle limit s = Ok tt s' /\
             allPosts s' = allPosts s ++ pds /\
             calls s' = calls s ++ [CResolveHandle handle;
                                    CGetAuthorFeed did "posts_no_replies" false 1;
                                    CResolveHandle handle;
                                    CGetAuthorFeed did' "posts_no_replies" false 100].
Proof.
  intros Hr Hf Hl Hp Hs Hlt Hr' Hf' Hw.
  unfold checkForNewPosts.
  rewrite (bind_Ok _ _ _ _ _ (getHandlePostList_ok w handle 1 s did feed1 Hr Hf)).
  rewrite Hl.
  unfold bind at 1, assert_FeedPost, ret at 1; rewrite Hp.
  unfold bind at 1, heap_Get, bind, touch; simpl.
  rewrite Hs; simpl.
  rewrite Hlt.
  match goal with
  | |- exists s', updatePosts _ _ _ ?s1 = _ /\ _ =>
      assert (Hlen : length (calls s1) = S (S (length (calls s))))
        by (simpl; rewrite length_app; simpl; lia);
      destruct (updatePosts_ok w handle 100 s1 did' feed100 pds) as (s' & Hrun & Hposts & Hcalls);
      [rewrite Hlen; exact Hr'|rewrite Hlen; exact Hf'|exact Hw|]
  end.
  exists s'; split; [exact Hrun|split].
  - rewrite Hposts; reflexivity.
  - rewrite Hcalls; simpl; rewrite <- app_assoc; reflexivity.
Qed.

(** X: when the check's most recent own post is strictly newer (as Go
    compares strings) than the item at position 0, [checkForNewPosts]
    resolves the handle again, fetches a window of 100 and appends it to
    the store: the store becomes its prior contents followed by the
    window, and the remote calls are resolve, feed(limit 1), resolve,
    feed(limit 100). *)
Theorem X_check_newer_appends_window w handle limit s did feed1 p0 rest fp top others
      did' feed100 pds :
  w_resolve w (length (calls s)) handle = ROk did ->
  w_feed w (S (length (calls s))) did 1 = ROk feed1 ->
  filter_author did feed1 = p0 :: rest ->
  pv_Record p0 = RecFeedPost fp ->
  allPosts s = top :: others ->
  String.leb (fp_CreatedAt fp) (Timestamp top) = false ->
  w_resolve w (S (S (length (calls s)))) handle = ROk did' ->
  w_feed w (S (S (S (length (calls s))))) did' 100 = ROk feed100 ->
  window_PostData (filter_author did' feed100) = Some pds ->
  exists s', checkForNewPosts w handle limit s = Ok tt s' /\
             allPosts s' = allPosts s ++ pds /\
             calls s' = calls s ++ [CResolveHandle handle;
                                    CGetAuthorFeed did "posts_no_replies" false 1;
                                    CResolveHandle handle;
                                    CGetAuthorFeed did' "posts_no_replies" false 100].
Proof. exact (checkForNewPosts_newer w handle limit s did feed1 p0 rest fp top others
                did' feed100 pds). Qed.

Lemma X_check_newer_appends_window_witness :
  exists s', checkForNewPosts w_grow "carl.cx" 100 (mkSt [P1] [CResolveHandle "carl.cx";
                CGetAuthorFeed did_x "posts_no_replies" false 100] [] []) = Ok tt s' /\
             allPosts s' = [P1] ++ [P2; P1] /\
             calls s' = [CResolveHandle "carl.cx";
                         CGetAuthorFeed did_x "posts_no_replies" false 100] ++
                        [CResolveHandle "carl.cx";
                         CGetAuthorFeed did_x "posts_no_replies" false 1;
                         CResolveHandle "carl.cx";
                         CGetAuthorFeed did_x "posts_no_replies" false 100].
Proof.
  apply (X_check_newer_appends_window w_grow "carl.cx" 100
           (mkSt [P1] [CResolveHandle "carl.cx";
                       CGetAuthorFeed did_x "posts_no_replies" false 100] [] [])
           did_x [mkFeedViewPost pv2] pv2 [] fp2 P1 []
           did_x [mkFeedViewPost pv2; mkFeedViewPost pv1] [P2; P1]);
    reflexivity.
Defined.

Lemma concat_repeat_snoc {A} (l : list A) k :
  concat (repeat l k) ++ l = concat (repeat l (S k)).
Proof.
  induction k as [|k IH]; simpl; [rewrite app_nil_r; reflexivity|].
  rewrite <- app_assoc, IH; reflexivity.
Qed.

(** X: if the remote service keeps answering the same, and the account's
    newest own post is strictly newer than the item at position 0, every
    hourly check refreshes and appends the same window again: after [k]
    checks the store is its earlier contents followed by [k] copies of the
    window (position 0 never changes, so the comparison never stops
    succeeding). *)
Theorem X_stable_newer_post_grows_every_tick w handle did feed1 feed100 p0 rest fp
      pds s top others ticks :
  stable_world w handle did feed1 feed100 ->
  filter_author did feed1 = p0 :: rest ->
  pv_Record p0 = RecFeedPost fp ->
  window_PostData (filter_author did feed100) = Some pds ->
  allPosts s = top :: others ->
  String.leb (fp_CreatedAt fp) (Timestamp top) = false ->
  exists s', ticker_loop w handle ticks s = Ok tt s' /\
             allPosts s' = allPosts s ++ concat (repeat pds ticks).
Proof.
  intros Hw Hl Hp Hpds Hs Hlt.
  induction ticks as [|k IH].
  - exists s; split; [reflexivity|]; simpl; rewrite app_nil_r; reflexivity.
  - destruct IH as (sk & Hrun & Hposts).
    simpl.
    rewrite (bind_Ok _ _ _ _ _ Hrun).
    unfold bind at 1, emit; simpl.
    set (sk' := mkSt (allPosts sk) (calls sk) (out sk ++ [OutChecking]) (acc sk)).
    destruct (Hw (length (calls sk'))) as (Hr1 & Hf1 & _).
    destruct (Hw (S (length (calls sk')))) as (_ & Hf1' & _).
    destruct (Hw (S (S (length (calls sk'))))) as (Hr2 & _ & _).
    destruct (Hw (S (S (S (length (calls sk')))))) as (_ & _ & Hf2).
    destruct (checkForNewPosts_newer w handle 100 sk' did feed1 p0 rest fp top
                (others ++ concat (repeat pds k)) did feed100 pds)
      as (s' & Hrun' & Hposts' & _); auto.
    + simpl; rewrite Hposts, Hs; reflexivity.
    + exists s'; split; [exact Hrun'|].
      rewrite Hposts'; simpl; rewrite Hposts, <- app_assoc, concat_repeat_snoc.
      reflexivity.
Qed.

Lemma X_stable_newer_post_grows_every_tick_witness :
  exists s', ticker_loop w_stable "carl.cx" 3 (st_of [P1]) = Ok tt s' /\
             allPosts s' = allPosts (st_of [P1]) ++ concat (repeat [P2; P1] 3).
Proof.
  apply (X_stable_newer_post_grows_every_tick w_stable "carl.cx" did_x
           [mkFeedViewPost pv2] [mkFeedViewPost pv2; mkFeedViewPost pv1]
           pv2 [] fp2 [P2; P1] (st_of [P1]) P1 []);
    try reflexivity.
  intros n; repeat split.
Defined.

(** ** The check panics when the latest item is not the account's own *)

(** X: when the single newest feed item is not a post of the resolved
    account (for instance a repost, whose author is someone else), the
    filtered list is empty and [checkForNewPosts] panics on [postList[0]]
    before comparing anything. *)
Theorem X_check_panics_when_latest_not_own w handle limit s did feed :
  w_resolve w (length (calls s)) handle = ROk did ->
  w_feed w (S (length (calls s))) did 1 = ROk feed ->
  filter_author did feed = [] ->
  exists s', checkForNewPosts w handle limit s =
             Panic "index out of range [0] with length 0" s' /\
             allPosts s' = allPosts s.
Proof.
  intros Hr Hf Hl.
  unfold checkForNewPosts.
  rewrite (bind_Ok _ _ _ _ _ (getHandlePostList_ok w handle 1 s did feed Hr Hf)).
  rewrite Hl; eexists; split; reflexivity.
Qed.

Lemma X_check_panics_when_latest_not_own_witness :
  let s0 := mkSt [P1] [CResolveHandle "carl.cx";
                       CGetAuthorFeed did_x "posts_no_replies" false 100] [] [] in
  exists s', checkForNewPosts w_repost "carl.cx" 100 s0 =
             Panic "index out of range [0] with length 0" s' /\
             allPosts s' = allPosts s0.
Proof.
  intros s0.
  apply (X_check_panics_when_latest_not_own w_repost "carl.cx" 100 s0 did_x
           [mkFeedViewPost (mkPostView "at://y/9" "did:plc:y" (RecFeedPost fp2))]);
    reflexivity.
Defined.

(** ** The handler only reads the store *)

(** X: a [GET /] request never changes the store or issues a remote
    call, whatever the store, the random draws and the connection, and
    however the handler ends. *)
Theorem X_handler_read_only rng conn s :
  allPosts (final (randomPostHandler rng conn s)) = allPosts s /\
  calls (final (randomPostHandler rng conn s)) = calls s.
Proof.
  unfold randomPostHandler, heap_Len, heap_Get, bind, touch, ret, panic.
  simpl; cbn [allPosts calls out acc].
  repeat (match goal with
          | |- context [Z.eqb ?a ?b] => destruct (Z.eqb a b)
          | |- context [Z.leb ?a ?b] => destruct (Z.leb a b)
          | |- context [Intn ?a ?b] => destruct (Intn a b) as [[? ?]|]
          | |- context [Get ?a ?b] => destruct (Get a b)
          | |- context [Encode ?a ?b] => destruct (Encode a b) as [? []]
          end; simpl; cbn [allPosts calls out acc]);
    split; reflexivity.
Qed.

Lemma handler_empty_404_witness :
  exists s', randomPostHandler [7] true (st_of []) =
    Ok (Some (mkResponse 404
                [("X-Content-Type-Options", "nosniff");
                 ("Content-Type", "text/plain; charset=utf-8")]%string
                [CText ("No posts available" ++ newline)])) s'.
Proof. apply (handler_empty_404 [7] true (st_of [])); reflexivity. Defined.

Lemma handler_nonempty_200_witness :
  exists p s', In p [P1; P2] /\
    randomPostHandler [3 * 2 ^ 60] true (st_of [P1; P2]) =
    Ok (Some (mkResponse 200 [("Content-Type", "application/json")]%string
                         [CJson (post_json p)])) s'.
Proof.
  apply (handler_nonempty_200 [3 * 2 ^ 60] (st_of [P1; P2]) 0 []).
  - discriminate.
  - repeat constructor; lia.
  - vm_compute; reflexivity.
Defined.

(** ** The heap methods *)

Lemma slice_index_Get (h : list PostData) i : slice_index h i = Get h i.
Proof. reflexivity. Qed.

Lemma Get_app_lt (l : list PostData) x i :
  0 <= i < Z.of_nat (length l) -> Get (l ++ [x]) i = Get l i.
Proof.
  intros Hi; unfold Get; rewrite length_snoc.
  replace ((i <? 0) || (i >=? Z.of_nat (S (length l)))) with false
    by (symmetry; apply orb_false_iff; split; [apply Z.ltb_ge | rewrite Z.geb_leb; apply Z.leb_gt]; lia).
  replace ((i <? 0) || (i >=? Z.of_nat (length l))) with false
    by (symmetry; apply orb_false_iff; split; [apply Z.ltb_ge | rewrite Z.geb_leb; apply Z.leb_gt]; lia).
  apply nth_error_app1; lia.
Qed.

Lemma Get_app_len (l : list PostData) x :
  Get (l ++ [x]) (Z.of_nat (length l)) = Some x /\ Get l (Z.of_nat (length l)) = None.
Proof.
  unfold Get; rewrite length_snoc.
  replace ((Z.of_nat (length l) <? 0) || (Z.of_nat (length l) >=? Z.of_nat (S (length l))))
    with false
    by (symmetry; apply orb_false_iff; split; [apply Z.ltb_ge | rewrite Z.geb_leb; apply Z.leb_gt]; lia).
  replace ((Z.of_nat (length l) <? 0) || (Z.of_nat (length l) >=? Z.of_nat (length l)))
    with true
    by (symmetry; apply orb_true_iff; right; rewrite Z.geb_leb; apply Z.leb_le; lia).
  rewrite Nat2Z.id, nth_error_app2, Nat.sub_diag by lia; auto.
Qed.

(** X: [Push] then [Get]: after [h.Push(x)], [h.Get(i)] for an index
    that was in range returns the item that was there, and [h.Get(len)]
    at the old length returns [x]; the store is the old one with [x]
    appended. *)
Theorem X_heap_Push_then_Get s x i :
  0 <= i <= Z.of_nat (length (allPosts s)) ->
  exists s', (heap_Push x ;;; heap_Get i) s =
             Ok (match Get (allPosts s) i with Some p => p | None => x end) s' /\
             allPosts s' = allPosts s ++ [x].
Proof.
  intros Hi.
  unfold heap_Push, heap_Get, bind, touch; simpl.
  destruct (Z.eq_dec i (Z.of_nat (length (allPosts s)))) as [->|Hne].
  - destruct (Get_app_len (allPosts s) x) as [-> ->].
    eexists; split; reflexivity.
  - rewrite Get_app_lt by lia.
    destruct (Get_in_bounds (allPosts s) i) as (p & -> & _); [lia|].
    eexists; split; reflexivity.
Qed.

Lemma X_heap_Push_then_Get_witness :
  exists s', (heap_Push P2 ;;; heap_Get 1) (st_of [P1]) =
             Ok (match Get (allPosts (st_of [P1])) 1 with Some p => p | None => P2 end) s' /\
             allPosts s' = allPosts (st_of [P1]) ++ [P2].
Proof. apply (X_heap_Push_then_Get (st_of [P1]) P2 1); simpl; lia. Defined.

(** X: [h.Pop()] on an empty heap panics (it reads [old[-1]]) and leaves
    the store empty; on a non-empty heap it returns the last item and
    removes exactly it.  Hence [Push(x)] followed by [Pop()] returns [x]
    and restores the store. *)
Theorem X_heap_Pop s :
  (allPosts s = [] ->
   exists s', heap_Pop s = Panic "index out of range [-1]" s' /\ allPosts s' = []) /\
  (forall l x, allPosts s = l ++ [x] ->
   exists s', heap_Pop s = Ok x s' /\ allPosts s' = l).
Proof.
  split.
  - intros Hs; unfold heap_Pop, bind, touch; simpl; rewrite Hs.
    eexists; split; reflexivity.
  - intros l x Hs; unfold heap_Pop, bind, touch; simpl; rewrite Hs.
    rewrite slice_index_Get, length_snoc.
    replace (Z.of_nat (S (length l)) - 1) with (Z.of_nat (length l)) by lia.
    destruct (Get_app_len l x) as [-> _].
    eexists; split; [reflexivity|simpl].
    rewrite Nat2Z.id, firstn_app, firstn_all, Nat.sub_diag; simpl.
    apply app_nil_r.
Qed.

Lemma X_heap_Pop_witness :
  (exists s', heap_Pop (st_of []) = Panic "index out of range [-1]" s' /\ allPosts s' = []) /\
  (exists s', heap_Pop (st_of [P1; P2]) = Ok P2 s' /\ allPosts s' = [P1]).
Proof.
  destruct (X_heap_Pop (st_of [])) as [H1 _].
  destruct (X_heap_Pop (st_of [P1; P2])) as [_ H2].
  split; [apply H1; reflexivity|apply (H2 [P1] P2); reflexivity].
Defined.

(** X: [Less] is a strict comparison: for indices in range, [Less(i, j)]
    and [Less(j, i)] are never both true, and [Less(i, i)] is false. *)
Theorem X_heap_Less_strict s i j :
  0 <= i < Z.of_nat (length (allPosts s)) ->
  0 <= j < Z.of_nat (length (allPosts s)) ->
  exists b1 b2 s1 s2, heap_Less i j s = Ok b1 s1 /\ heap_Less j i s = Ok b2 s2 /\
                      b1 && b2 = false /\ (i = j -> b1 = false).
Proof.
  intros Hi Hj.
  destruct (Get_in_bounds _ i Hi) as (pi & Hpi & _).
  destruct (Get_in_bounds _ j Hj) as (pj & Hpj & _).
  assert (Hsi : slice_index (allPosts s) i = Some pi) by exact Hpi.
  assert (Hsj : slice_index (allPosts s) j = Some pj) by exact Hpj.
  unfold heap_Less, bind, touch; simpl; rewrite Hsi, Hsj.
  do 4 eexists; split; [reflexivity|split; [reflexivity|split]].
  - unfold String.ltb; rewrite (String.compare_antisym (Timestamp pi)).
    destruct (String.compare (Timestamp pj) (Timestamp pi)); reflexivity.
  - intros ->; rewrite Hpi in Hpj; injection Hpj as <-.
    pose proof (String.compare_antisym (Timestamp pi) (Timestamp pi)) as Ha.
    unfold String.ltb; destruct (String.compare _ _); simpl in Ha;
      [reflexivity|discriminate|reflexivity].
Qed.

Lemma X_heap_Less_strict_witness :
  exists b1 b2 s1 s2, heap_Less 0 1 (st_of [P1; P2]) = Ok b1 s1 /\
                      heap_Less 1 0 (st_of [P1; P2]) = Ok b2 s2 /\
                      b1 && b2 = false /\ (0 = 1 -> b1 = false).
Proof. apply (X_heap_Less_strict (st_of [P1; P2]) 0 1); simpl; lia. Defined.

Lemma list_set_app {A} (l1 l2 : list A) b a :
  list_set (l1 ++ b :: l2) (length l1) a = l1 ++ a :: l2.
Proof. induction l1 as [|y l1 IH]; simpl; [reflexivity|rewrite IH; reflexivity]. Qed.

Lemma list_set_same {A} (l : list A) n a :
  nth_error l n = Some a -> list_set l n a = l.
Proof.
  revert n; induction l as [|y l IH]; intros [|n]; simpl; try discriminate.
  - intros H; inversion H; reflexivity.
  - intros H; rewrite IH; auto.
Qed.

Lemma perm_exchange {A} (l1 l2 l3 : list A) a b :
  Permutation (l1 ++ a :: l2 ++ b :: l3) (l1 ++ b :: l2 ++ a :: l3).
Proof.
  apply Permutation_app_head.
  transitivity (a :: b :: l2 ++ l3).
  { apply perm_skip; symmetry; apply Permutation_middle. }
  transitivity (b :: a :: l2 ++ l3); [apply perm_swap|].
  apply perm_skip; apply Permutation_middle.
Qed.

Lemma split_after {A} (l1 r : list A) a b k :
  nth_error (l1 ++ a :: r) (length l1 + S k) = Some b ->
  exists l2 l3, r = l2 ++ b :: l3 /\ length l2 = k.
Proof.
  intros H.
  rewrite nth_error_app2 in H by lia.
  replace (length l1 + S k - length l1)%nat with (S k) in H by lia.
  simpl in H; apply nth_error_split in H; exact H.
Qed.

Lemma swap_perm {A} (l : list A) (i j : nat) a b :
  nth_error l j = Some b -> nth_error l i = Some a ->
  Permutation (list_set (list_set l i b) j a) l.
Proof.
  intros Hj Hi.
  destruct (Nat.lt_trichotomy i j) as [Hlt|[<-|Hgt]].
  - destruct (nth_error_split l i Hi) as (l1 & r & -> & <-).
    replace j with (length l1 + S (j - length l1 - 1))%nat in Hj by lia.
    destruct (split_after l1 r a b _ Hj) as (l2 & l3 & -> & Hl2).
    rewrite list_set_app.
    replace j with (length (l1 ++ b :: l2)) by (rewrite length_app; simpl; lia).
    replace (l1 ++ b :: l2 ++ b :: l3) with ((l1 ++ b :: l2) ++ b :: l3)
      by (rewrite <- app_assoc; reflexivity).
    rewrite list_set_app, <- app_assoc; simpl.
    apply perm_exchange.
  - rewrite Hi in Hj; injection Hj as ->.
    rewrite !list_set_same; auto.
    rewrite list_set_same; auto.
  - destruct (nth_error_split l j Hj) as (l1 & r & -> & <-).
    replace i with (length l1 + S (i - length l1 - 1))%nat in Hi by lia.
    destruct (split_after l1 r b a _ Hi) as (l2 & l3 & -> & Hl2).
    replace i with (length (l1 ++ b :: l2)) by (rewrite length_app; simpl; lia).
    replace (l1 ++ b :: l2 ++ a :: l3) with ((l1 ++ b :: l2) ++ a :: l3)
      by (rewrite <- app_assoc; reflexivity).
    rewrite list_set_app, <- app_assoc; simpl.
    rewrite list_set_app, <- ?app_assoc; simpl.
    apply perm_exchange.
Qed.

Lemma slice_index_nth (h : list PostData) i p :
  slice_index h i = Some p -> nth_error h (Z.to_nat i) = Some p.
Proof.
  unfold slice_index; destruct ((i <? 0) || (i >=? Z.of_nat (length h))); [discriminate|auto].
Qed.

(** X: [h.Swap(i, j)] with both indices in range succeeds and only
    permutes the store (no item is lost or duplicated); with an index out
    of range it panics and leaves the store as it was. *)
Theorem X_heap_Swap_permutes s i j :
  (0 <= i < Z.of_nat (length (allPosts s)) ->
   0 <= j < Z.of_nat (length (allPosts s)) ->
   exists s', heap_Swap i j s = Ok tt s' /\ Permutation (allPosts s') (allPosts s)) /\
  (~ (0 <= i < Z.of_nat (length (allPosts s))) \/
   ~ (0 <= j < Z.of_nat (length (allPosts s))) ->
   exists s', heap_Swap i j s = Panic "index out of range" s' /\ allPosts s' = allPosts s).
Proof.
  split.
  - intros Hi Hj.
    destruct (Get_in_bounds _ i Hi) as (pi & Hpi & _).
    destruct (Get_in_bounds _ j Hj) as (pj & Hpj & _).
    assert (Hsi : slice_index (allPosts s) i = Some pi) by exact Hpi.
    assert (Hsj : slice_index (allPosts s) j = Some pj) by exact Hpj.
    unfold heap_Swap, bind, touch; simpl; rewrite Hsi, Hsj.
    eexists; split; [reflexivity|simpl].
    apply swap_perm; apply slice_index_nth; assumption.
  - intros Hout.
    assert (Hnone : slice_index (allPosts s) i = None \/ slice_index (allPosts s) j = None).
    { unfold slice_index.
      destruct Hout as [Hout|Hout]; [left|right];
        replace (_ || _) with true; auto;
        symmetry; apply orb_true_iff;
        destruct (Z.ltb_spec i 0), (Z.ltb_spec j 0); try (left; reflexivity);
        right; rewrite Z.geb_leb; apply Z.leb_le; lia. }
    unfold heap_Swap, bind, touch; simpl.
    destruct Hnone as [Hn|Hn]; rewrite Hn;
      [destruct (slice_index (allPosts s) j)|]; eexists; split; reflexivity.
Qed.

Lemma X_heap_Swap_permutes_witness :
  (exists s', heap_Swap 0 1 (st_of [P1; P2]) = Ok tt s' /\
              Permutation (allPosts s') [P1; P2]) /\
  (exists s', heap_Swap 0 2 (st_of [P1; P2]) = Panic "index out of range" s' /\
              allPosts s' = [P1; P2]).
Proof.
  destruct (X_heap_Swap_permutes (st_of [P1; P2]) 0 1) as [H1 _].
  destruct (X_heap_Swap_permutes (st_of [P1; P2]) 0 2) as [_ H2].
  split; [apply H1; simpl; lia|apply H2; right; simpl; lia].
Defined.

(** ** The earlier revision *)

(** X: the handler of the earlier revision (direct slice indexing) and
    the current one ([MaxHeap.Get]) answer every request the same way:
    for every store, random draws and connection, both return the same
    response (or both run out of draws), or both panic; neither changes
    the store. *)
Theorem X_handler_revisions_agree rng conn s :
  match randomPostHandler rng conn s, randomPostHandler_v0 rng conn s with
  | Ok a s1, Ok b s2 => a = b /\ allPosts s1 = allPosts s /\ allPosts s2 = allPosts s
  | Panic _ _, Panic _ _ => True
  | _, _ => False
  end.
Proof.
  unfold randomPostHandler, randomPostHandler_v0, heap_Len, heap_Get, bind, touch, ret, panic.
  simpl; cbn [allPosts calls out acc].
  repeat (match goal with
          | |- context [Z.eqb ?a ?b] => destruct (Z.eqb a b)
          | |- context [Z.leb ?a ?b] => destruct (Z.leb a b)
          | |- context [Intn ?a ?b] => destruct (Intn a b) as [[? ?]|]
          | |- context [slice_index ?a ?b] => change (slice_index a b) with (Get a b)
          | |- context [Get ?a ?b] => destruct (Get a b)
          | |- context [Encode ?a ?b] => destruct (Encode a b) as [? []]
          end; simpl; cbn [allPosts calls out acc]);
    auto.
Qed.

Lemma append_all_v0_ok pl pds s :
  window_PostData pl = Some pds ->
  exists s', append_all_v0 pl s = Ok tt s' /\
             allPosts s' = allPosts s ++ pds /\ calls s' = calls s.
Proof.
  revert pds s; induction pl as [|post rest IH]; intros pds s Hw.
  - simpl in Hw; inversion Hw; subst.
    exists s; simpl; rewrite app_nil_r; auto.
  - simpl in Hw.
    destruct (pv_Record post) as [fp|t] eqn:Er; [|discriminate].
    destruct (window_PostData rest) as [pds'|] eqn:Ew; simpl in Hw; [|discriminate].
    inversion Hw; subst; clear Hw.
    set (s1 := mkSt (allPosts s ++ [to_PostData post fp]) (calls s) (out s)
                    (acc s ++ [ARead; AWrite])).
    destruct (IH pds' s1 eq_refl) as (s' & Hrun & Hposts & Hcalls).
    exists s'; split; [|split].
    + simpl; unfold bind, assert_FeedPost; rewrite Er; simpl.
      exact Hrun.
    + rewrite Hposts; simpl; rewrite <- app_assoc; reflexivity.
    + rewrite Hcalls; reflexivity.
Qed.

(** X: the earlier revision's [main] loads once: it resolves the handle,
    requests 50 posts, and, when every record is a feed post, fills the
    empty store with exactly the account's own posts of that window, in
    feed order. *)
Theorem X_v0_initial_load w did feed pds :
  w_resolve w 0 "carl.cx" = ROk did ->
  w_feed w 1 did 50 = ROk feed ->
  window_PostData (filter_author did feed) = Some pds ->
  exists s', main_v0_load w = Ok tt s' /\
             allPosts s' = pds /\
             calls s' = [CResolveHandle "carl.cx";
                         CGetAuthorFeed did "posts_no_replies" false 50].
Proof.
  intros Hr Hf Hw.
  unfold main_v0_load.
  unfold bind at 1, emit; simpl.
  set (s0 := mkSt [] [] [OutFetching "carl.cx"] []).
  rewrite (bind_Ok _ _ _ _ _ (getHandlePostList_ok w "carl.cx" 50 s0 did feed Hr Hf)).
  unfold bind at 1, emit; simpl.
  match goal with
  | |- exists s', append_all_v0 _ ?s1 = _ /\ _ =>
      destruct (append_all_v0_ok _ _ s1 Hw) as (s' & Hrun & Hposts & Hcalls)
  end.
  exists s'; split; [exact Hrun|split; [rewrite Hposts|rewrite Hcalls]; reflexivity].
Qed.

Lemma X_v0_initial_load_witness :
  exists s', main_v0_load w_stable = Ok tt s' /\
             allPosts s' = [P2; P1] /\
             calls s' = [CResolveHandle "carl.cx";
                         CGetAuthorFeed did_x "posts_no_replies" false 50].
Proof.
  apply (X_v0_initial_load w_stable did_x [mkFeedViewPost pv2; mkFeedViewPost pv1]);
    reflexivity.
Defined.
